(** * SimpleNAT: the NAT store of simple_nat.cpp

    A shallow embedding of class [NATStore] (simple_nat.cpp): the tokenizer
    [parse], the validators [is_pint], [is_port], [is_ip], [is_valid],
    [parse_entry], and the two operations [save] (DefineRule) and
    [translate] (Translate), followed by the properties of the translation
    table that the specification states.

    Strings are [string] (one [ascii] per C++ [char]); the
    [unordered_map<string,string>] is a [gmap string string]; a call that
    can throw, index a vector out of range or loop returns an [outcome]. *)

From Stdlib Require Import ZArith Ascii String List Lia Bool.
From stdpp Require Import base option gmap strings list fin_maps.

(** ** Outcomes of a C++ call *)

(** The two exceptions [std::stoi] throws. *)
Inductive exception : Type :=
| invalid_argument
| out_of_range.

(** A call returns normally, leaves by an exception nobody catches, reads a
    vector out of its bounds (undefined behaviour of [operator[]]), or does
    not leave its loop. *)
Inductive outcome (A : Type) : Type :=
| Normal (a : A)
| Throws (e : exception)
| Undefined
| Diverges.

Arguments Normal {A} a.
Arguments Throws {A} e.
Arguments Undefined {A}.
Arguments Diverges {A}.

#[global] Instance outcome_ret : MRet outcome := fun A a => Normal a.

#[global] Instance outcome_bind : MBind outcome := fun A B k m =>
  match m with
  | Normal a => k a
  | Throws e => Throws e
  | Undefined => Undefined
  | Diverges => Diverges
  end.

(** ** The parts of [std::string] and [std::vector] the code uses *)

Module Std.

(** [npos] is [None]. [s.find(d)]: the first position at which [d] occurs
    in [s]. *)
Fixpoint find (s d : string) : option nat :=
  if String.prefix d s then Some 0
  else match s with
       | EmptyString => None
       | String _ rest => S <$> find rest d
       end.

(** [s.substr(pos, n)], for [pos <= s.size()]. *)
Definition substr (s : string) (pos n : nat) : string :=
  String.substring pos n s.

(** [s.erase(pos, n)], for [pos <= s.size()]. *)
Definition erase (s : string) (pos n : nat) : string :=
  String.substring 0 pos s +:+
  String.substring (pos + n) (String.length s - (pos + n)) s.

Fixpoint mem_char (c : ascii) (chars : string) : bool :=
  match chars with
  | EmptyString => false
  | String x rest => Ascii.eqb c x || mem_char c rest
  end.

(** [s.find_first_not_of(chars)]. *)
Fixpoint find_first_not_of (s chars : string) : option nat :=
  match s with
  | EmptyString => None
  | String c rest =>
      if mem_char c chars then S <$> find_first_not_of rest chars
      else Some 0
  end.

(** [v[i]] on a vector: outside the bounds the behaviour is undefined. *)
Definition at_index (v : list string) (i : nat) : outcome string :=
  match v !! i with
  | Some x => Normal x
  | None => Undefined
  end.

(** *** [std::stoi(str)] (base 10, no position out-parameter)

    [strtol] skips white space, reads an optional sign and the longest run
    of decimal digits; without a digit [stoi] throws [invalid_argument],
    with a value that does not fit [int] it throws [out_of_range]. [int]
    is taken 32 bits wide. *)

Definition INT_MAX : Z := 2147483647%Z.
Definition INT_MIN : Z := (-2147483648)%Z.

Definition isspace (c : ascii) : bool :=
  let n := nat_of_ascii c in
  (n =? 32) || ((9 <=? n) && (n <=? 13)).

Definition isdigit (c : ascii) : bool :=
  let n := nat_of_ascii c in
  (48 <=? n) && (n <=? 57).

Definition digit_value (c : ascii) : Z :=
  (Z.of_nat (nat_of_ascii c) - 48)%Z.

Fixpoint skip_space (s : string) : string :=
  match s with
  | EmptyString => EmptyString
  | String c rest => if isspace c then skip_space rest else s
  end.

Fixpoint leading_digits (s : string) : string :=
  match s with
  | EmptyString => EmptyString
  | String c rest =>
      if isdigit c then String c (leading_digits rest) else EmptyString
  end.

(** The accumulation loop of [strtol]. *)
Fixpoint accumulate (acc : Z) (digits : string) : Z :=
  match digits with
  | EmptyString => acc
  | String c rest => accumulate (10 * acc + digit_value c)%Z rest
  end.

Definition stoi (str : string) : outcome Z :=
  let s := skip_space str in
  let '(negative, s) :=
    match s with
    | String "-"%char rest => (true, rest)
    | String "+"%char rest => (false, rest)
    | _ => (false, s)
    end in
  let digits := leading_digits s in
  if String.eqb digits "" then Throws invalid_argument
  else
    let magnitude := accumulate 0 digits in
    let v := if negative : bool then (- magnitude)%Z else magnitude in
    if (v <? INT_MIN)%Z || (INT_MAX <? v)%Z then Throws out_of_range
    else Normal v.

End Std.

(** ** The NAT store *)

Inductive Status : Type := INVALID | OK | NO_MATCH.

#[global] Instance Status_eq_dec : EqDecision Status.
Proof. solve_decision. Defined.

Module NATStore.
Import Std.

(** The [while] loop of [parse]: [entry] is the local copy that is eaten
    from the front, [parsed] the vector built so far. Each turn with a
    non-empty delimiter shortens [entry], [fuel] bounds the turns. *)
Fixpoint parse_loop (fuel : nat) (entry delimiter : string)
    (parsed : list string) : outcome (list string) :=
  match fuel with
  | O => Diverges
  | S fuel' =>
      match find entry delimiter with
      | Some i =>
          let token := substr entry 0 i in
          parse_loop fuel'
            (erase entry 0 (i + String.length delimiter)) delimiter
            (parsed ++ [token])
      | None => Normal (parsed ++ [entry])
      end
  end.

Definition parse (entry delimiter : string) : outcome (list string) :=
  parse_loop (S (String.length entry)) entry delimiter [].

Definition is_pint (input : string) : bool :=
  match find_first_not_of input "0123456789" with
  | None => true
  | Some _ => false
  end.

Definition is_port (port : string) : outcome bool :=
  if String.eqb port "*" then Normal true
  else if negb (is_pint port) then Normal false
  else
    p ← stoi port;
    if (p >? 65535)%Z || (p <? 0)%Z then Normal false
    else Normal true.

(** The [for] loop of [is_ip] over [parsed[0]], [parsed[1]], ... *)
Fixpoint is_ip_loop (parsed : list string) : outcome bool :=
  match parsed with
  | [] => Normal true
  | token :: rest =>
      if negb (is_pint token) then Normal false
      else
        p ← stoi token;
        if (p >? 255)%Z || (p <? 0)%Z then Normal false
        else is_ip_loop rest
  end.

Definition is_ip (ip : string) : outcome bool :=
  if String.eqb ip "*" then Normal true
  else
    parsed ← parse ip ".";
    if negb (length parsed =? 4) then Normal false
    else is_ip_loop parsed.

(** [!is_ip(a) || !is_port(p)], left to right with short circuit. *)
Definition not_ip_or_not_port (a p : outcome string) : outcome bool :=
  a ← a;
  ok_ip ← is_ip a;
  if negb ok_ip then Normal true
  else
    p ← p;
    ok_port ← is_port p;
    Normal (negb ok_port).

Definition is_valid (pair : string) (is_value : bool) : outcome bool :=
  parsed ← parse pair ":";
  if negb (length parsed =? 2) then Normal false
  else
    p0 ← at_index parsed 0;
    p1 ← at_index parsed 1;
    if is_value && (String.eqb p0 "*" || String.eqb p1 "*") then Normal false
    else if String.eqb p0 "*" && String.eqb p1 "*" then Normal false
    else
      bad ← not_ip_or_not_port (Normal p0) (Normal p1);
      if bad : bool then Normal false else Normal true.

Definition parse_entry (entry : string) : outcome (list string) :=
  parsed ← parse entry ",";
  if negb (length parsed =? 2) then Normal []
  else
    e0 ← at_index parsed 0;
    v0 ← is_valid e0 false;
    if negb v0 then Normal []
    else
      e1 ← at_index parsed 1;
      v1 ← is_valid e1 true;
      if negb v1 then Normal [] else Normal parsed.

(** [void save(string key, string value)]: [dictionary[key] = value]. *)
Definition save_key_value (dictionary : gmap string string)
    (key value : string) : gmap string string :=
  <[key := value]> dictionary.

(** [Status save(string entry)]: the status and the dictionary after the
    call. *)
Definition save (dictionary : gmap string string) (entry : string)
    : outcome (Status * gmap string string) :=
  parsed ← parse_entry entry;
  match parsed with
  | [] => Normal (INVALID, dictionary)
  | _ =>
      k ← at_index parsed 0;
      v ← at_index parsed 1;
      Normal (OK, save_key_value dictionary k v)
  end.

(** [dictionary[key]] read as an rvalue: an absent key is first inserted
    with the empty string. *)
Definition subscript (dictionary : gmap string string) (key : string)
    : string * gmap string string :=
  match dictionary !! key with
  | Some v => (v, dictionary)
  | None => (EmptyString, <[key := EmptyString]> dictionary)
  end.

(** [Status translate(string key, string& value)]: the status, the content
    of [value] after the call and the dictionary after the call. *)
Definition translate (dictionary : gmap string string) (key value : string)
    : outcome (Status * string * gmap string string) :=
  parsed ← parse key ":";
  bad ← not_ip_or_not_port (at_index parsed 0) (at_index parsed 1);
  if bad : bool then Normal (INVALID, value, dictionary)
  else
    p0 ← at_index parsed 0;
    p1 ← at_index parsed 1;
    if String.eqb p0 "*" || String.eqb p1 "*"
    then Normal (INVALID, value, dictionary)
    else
      match dictionary !! key with
      | Some _ =>
          let '(v, d) := subscript dictionary key in Normal (OK, v, d)
      | None =>
          let key_port := p0 +:+ ":*" in
          match dictionary !! key_port with
          | Some _ =>
              let '(v, d) := subscript dictionary key_port in
              Normal (OK, v, d)
          | None =>
              let key_ip := "*:" +:+ p1 in
              match dictionary !! key_ip with
              | Some _ =>
                  let '(v, d) := subscript dictionary key_ip in
                  Normal (OK, v, d)
              | None => Normal (NO_MATCH, value, dictionary)
              end
          end
      end.

End NATStore.

(** ** The vocabulary of the specification *)

Module Spec.
Import Std.

(** The tokenizer as the specification describes it: the substrings
    between the occurrences of the delimiter character, the remainder
    last; a text without the delimiter is its own single token. *)
Fixpoint split (c : ascii) (s : string) : list string :=
  match s with
  | EmptyString => [EmptyString]
  | String x rest =>
      if Ascii.eqb x c then EmptyString :: split c rest
      else match split c rest with
           | token :: tokens => String x token :: tokens
           | [] => [String x EmptyString]
           end
  end.

Fixpoint join (c : ascii) (tokens : list string) : string :=
  match tokens with
  | [] => EmptyString
  | [token] => token
  | token :: rest => token +:+ String c (join c rest)
  end.

(** A purely numeric token: decimal digits only, at least one. *)
Fixpoint all_digits (t : string) : bool :=
  match t with
  | EmptyString => true
  | String c rest => isdigit c && all_digits rest
  end.

(** The integer a decimal string denotes. *)
Fixpoint integer_value (t : string) : Z :=
  match t with
  | EmptyString => 0
  | String c rest =>
      (digit_value c * 10 ^ Z.of_nat (String.length rest)
       + integer_value rest)%Z
  end.

Definition numeric_token (hi : Z) (t : string) : bool :=
  negb (String.eqb t "") && all_digits t
  && (0 <=? integer_value t)%Z && (integer_value t <=? hi)%Z.

Definition wildcard : string := "*".

(** [D.D.D.D] with each [D] a decimal string for 0..255. *)
Definition dotted_quad (address : string) : Prop :=
  ∃ d1 d2 d3 d4 : string,
    address = d1 +:+ "." +:+ d2 +:+ "." +:+ d3 +:+ "." +:+ d4
    ∧ numeric_token 255 d1 ∧ numeric_token 255 d2
    ∧ numeric_token 255 d3 ∧ numeric_token 255 d4.

Definition valid_address (address : string) : Prop :=
  address = wildcard ∨ dotted_quad address.

Definition valid_port (port : string) : Prop :=
  port = wildcard ∨ numeric_token 65535 port.

(** [text] is the Endpoint text [address:port]. *)
Definition endpoint (text address port : string) : Prop :=
  text = address +:+ ":" +:+ port
  ∧ valid_address address ∧ valid_port port.

Definition valid_endpoint (text : string) : Prop :=
  ∃ address port, endpoint text address port.

(** A legal rule source: a valid Endpoint that is not fully wildcard. *)
Definition valid_source (text : string) : Prop :=
  ∃ address port, endpoint text address port
    ∧ ¬ (address = wildcard ∧ port = wildcard).

(** A fully concrete Endpoint: no wildcard marker in either field. *)
Definition concrete_endpoint (text : string) : Prop :=
  ∃ address port, endpoint text address port
    ∧ address ≠ wildcard ∧ port ≠ wildcard.

(** The three candidate keys of a lookup, in probing order. *)
Definition candidates (address port : string) : list string :=
  [address +:+ ":" +:+ port; address +:+ ":*"; "*:" +:+ port].

(** The destination stored under the first candidate present. *)
Fixpoint first_present (table : gmap string string) (keys : list string)
    : option string :=
  match keys with
  | [] => None
  | k :: rest =>
      match table !! k with
      | Some d => Some d
      | None => first_present table rest
      end
  end.

End Spec.

Import Std NATStore Spec.

#[local] Arguments parse : simpl never.
#[local] Arguments is_pint : simpl never.
#[local] Arguments is_port : simpl never.
#[local] Arguments is_ip : simpl never.
#[local] Arguments is_valid : simpl never.
#[local] Arguments parse_entry : simpl never.
#[local] Arguments save : simpl never.
#[local] Arguments translate : simpl never.
#[local] Arguments stoi : simpl never.

(** ** Derived definitions used by the proofs *)

(** One numeric field check of the code in closed form: [is_pint], then
    [stoi], then the range test against [hi]. *)
Definition field_check (hi : Z) (t : string) : outcome bool :=
  if negb (all_digits t) then Normal false
  else if String.eqb t "" then Throws invalid_argument
  else if (INT_MAX <? integer_value t)%Z then Throws out_of_range
  else Normal (integer_value t <=? hi)%Z.

(** The tables the shell can build: from the empty table by calls of
    [save] and [translate] that return. *)
Inductive reachable : gmap string string → Prop :=
| reachable_empty : reachable ∅
| reachable_save table entry status table' :
    reachable table →
    save table entry = Normal (status, table') →
    reachable table'
| reachable_translate table key value status value' table' :
    reachable table →
    translate table key value = Normal (status, value', table') →
    reachable table'.

(** The tables that [test()] of simple_nat.cpp builds, after its cases 8,
    9 and 12. *)
Definition nat8 : gmap string string :=
  <["10.0.1.1:8080" := "192.168.0.1:80"]> ∅.
Definition nat9 : gmap string string :=
  <["*:8082" := "192.168.0.1:81"]> nat8.
Definition nat12 : gmap string string :=
  <["10.0.1.2:*" := "192.168.0.1:83"]> nat9.

(** ** The driver [main] *)

Module Driver.

(** What the loop [while (getline(stream, line))] reads from a stream with
    the given content: the text before each newline, and the text after
    the last newline when there is some. A stream that could not be
    opened reads like the empty content. *)
Fixpoint getlines (content : string) : list string :=
  match content with
  | EmptyString => []
  | String c rest =>
      if Ascii.eqb c "010"%char then EmptyString :: getlines rest
      else match getlines rest with
           | [] => [String c EmptyString]
           | line :: lines => String c line :: lines
           end
  end.

(** The first loop of [main] over the lines of the file NAT: the
    dictionary and the lines sent to [cout]. *)
Fixpoint load (dictionary : gmap string string) (cout : list string)
    (lines : list string) : outcome (gmap string string * list string) :=
  match lines with
  | [] => Normal (dictionary, cout)
  | line :: rest =>
      if negb (String.eqb line "") then
        r ← save dictionary line;
        if bool_decide (r.1 ≠ OK)
        then load r.2
               (cout ++ ["Error: " +:+ line +:+ " is not valid input"]) rest
        else load r.2 cout rest
      else load dictionary cout rest
  end.

(** The character the escape [\n] stands for, as a text. *)
Definition newline : string := String "010"%char EmptyString.

(** The text [main] writes to the file OUTPUT for one query. *)
Definition report (line : string) (stat : Status) (value : string) : string :=
  match stat with
  | INVALID => "query " +:+ line +:+ " format is incorrect" +:+ newline
  | NO_MATCH => "No nat match for " +:+ line +:+ newline
  | OK => line +:+ " -> " +:+ value +:+ newline
  end.

(** The second loop of [main] over the lines of the file FLOW: the
    dictionary and the texts written to OUTPUT, one per [<<]. The [value]
    declared in the loop body starts empty at every turn. *)
Fixpoint answer (dictionary : gmap string string) (outfile : list string)
    (lines : list string) : outcome (gmap string string * list string) :=
  match lines with
  | [] => Normal (dictionary, outfile)
  | line :: rest =>
      if negb (String.eqb line "") then
        r ← translate dictionary line "";
        answer r.2 (outfile ++ [report line r.1.1 r.1.2]) rest
      else answer dictionary outfile rest
  end.

(** [main] on the contents of the files NAT and FLOW: the lines sent to
    [cout] and the texts written to OUTPUT. *)
Definition main (NAT FLOW : string) : outcome (list string * list string) :=
  loaded ← load ∅ [] (getlines NAT);
  answered ← answer loaded.1 [] (getlines FLOW);
  Normal (loaded.2, answered.2).

End Driver.

(** ** Further derived definitions *)

(** The tokens put together again, the delimiter between them. *)
Fixpoint join_with (delimiter : string) (tokens : list string) : string :=
  match tokens with
  | [] => EmptyString
  | [token] => token
  | token :: rest => token +:+ delimiter +:+ join_with delimiter rest
  end.

(** How often a character occurs in a text. *)
Fixpoint count_char (c : ascii) (s : string) : nat :=
  match s with
  | EmptyString => 0
  | String x rest =>
      (if Ascii.eqb x c then 1 else 0) + count_char c rest
  end.

(** A call that came back, by return or by exception. *)
Definition returns_or_throws {A : Type} (o : outcome A) : Prop :=
  match o with
  | Normal _ | Throws _ => True
  | Undefined | Diverges => False
  end.

(** The line [main] sends to [cout] for an entry [save] did not store. *)
Definition error_line (line : string) : string :=
  "Error: " +:+ line +:+ " is not valid input".

(** What the caller of [save] sees of a call, the table left aside. *)
Definition status_of (o : outcome (Status * gmap string string))
    : outcome Status :=
  r ← o; Normal r.1.

(** Whether [save] reports something else than OK on a line ([save]
    decides that without looking at the table). *)
Definition rejected (line : string) : bool :=
  match status_of (save ∅ line) with
  | Normal OK => false
  | _ => true
  end.

(** Small contents of the files NAT and FLOW, with an empty line and a
    line that is no rule. *)
Definition sample_NAT : string :=
  "10.0.1.1:8080,192.168.0.1:80" +:+ Driver.newline +:+ Driver.newline
  +:+ "192.168.0.1:80" +:+ Driver.newline
  +:+ "*:8082,192.168.0.1:81" +:+ Driver.newline.
Definition sample_FLOW : string :=
  "10.0.1.1:8085" +:+ Driver.newline +:+ "*:8082" +:+ Driver.newline
  +:+ Driver.newline +:+ "10.0.1.1:8082".

(** A file NAT of valid rules and a file FLOW of concrete queries. *)
Definition valid_NAT : string :=
  "10.0.1.1:8080,192.168.0.1:80" +:+ Driver.newline +:+ Driver.newline
  +:+ "*:8082,192.168.0.1:81" +:+ Driver.newline.
Definition valid_FLOW : string :=
  "10.0.1.1:8085" +:+ Driver.newline +:+ "10.0.1.1:8082".

(** A file NAT whose second line has an empty port. *)
Definition throwing_NAT : string :=
  "10.0.1.1:8080,192.168.0.1:80" +:+ Driver.newline
  +:+ "1.2.3.4:,1.2.3.4:80" +:+ Driver.newline
  +:+ "*:8082,192.168.0.1:81".

(** ** Strings *)

Section strings.

Lemma append_cons (x : ascii) (a b : string) :
  String x a +:+ b = String x (a +:+ b).
Proof. done. Qed.

Lemma append_char (x : ascii) (s : string) : String x "" +:+ s = String x s.
Proof. done. Qed.

Lemma append_nil_l (s : string) : "" +:+ s = s.
Proof. done. Qed.

Lemma append_nil_r (s : string) : s +:+ "" = s.
Proof.
  induction s as [|x s IH]; [done|]. by rewrite append_cons, IH.
Qed.

Lemma append_assoc (a b c : string) : (a +:+ b) +:+ c = a +:+ b +:+ c.
Proof.
  induction a as [|x a IH]; [done|]. by rewrite !append_cons, IH.
Qed.

Lemma substring_0_0 (s : string) : String.substring 0 0 s = "".
Proof. by destruct s. Qed.

Lemma substring_all (s : string) : String.substring 0 (String.length s) s = s.
Proof. induction s as [|x s IH]; [done|]. cbn. by rewrite IH. Qed.

Lemma eqb_eq_dec (a b : string) :
  String.eqb a b = bool_decide (a = b).
Proof.
  destruct (String.eqb_spec a b).
  - by rewrite bool_decide_eq_true_2.
  - by rewrite bool_decide_eq_false_2.
Qed.

Lemma prefix_char (c : ascii) (s : string) :
  String.prefix (String c "") s
  = match s with String x _ => Ascii.eqb x c | EmptyString => false end.
Proof.
  destruct s as [|x r]; [done|]. cbn.
  destruct (ascii_dec c x) as [->|Hne].
  - rewrite Ascii.eqb_refl. by destruct r.
  - symmetry. apply Ascii.eqb_neq. congruence.
Qed.

End strings.

(** ** The loop of [parse] terminates *)

Section termination.

Lemma length_substring_le (s : string) (n m : nat) :
  String.length (String.substring n m s) ≤ String.length s - n.
Proof.
  revert n m. induction s as [|x s IH]; intros [|n] [|m]; cbn; try lia.
  - specialize (IH 0 m). lia.
  - apply IH.
  - apply IH.
Qed.

Lemma length_erase_front (s : string) (n : nat) :
  String.length (erase s 0 n) ≤ String.length s - n.
Proof.
  unfold erase. rewrite substring_0_0, append_nil_l. apply length_substring_le.
Qed.

Lemma find_not_empty (s d : string) (i : nat) :
  find s d = Some i → d ≠ "" → s ≠ "".
Proof. intros Hfind Hd ->. destruct d; [done|]. discriminate Hfind. Qed.

(** With a delimiter that is not empty every turn shortens [entry], so
    the fuel [parse] starts with is never used up. *)
Lemma parse_loop_terminates (fuel : nat) (entry delimiter : string)
    (parsed : list string) :
  delimiter ≠ "" → String.length entry < fuel →
  ∃ tokens, parse_loop fuel entry delimiter parsed = Normal tokens.
Proof.
  intros Hd. revert entry parsed.
  induction fuel as [|fuel IH]; intros entry parsed Hlt; [lia|].
  cbn [parse_loop]. destruct (find entry delimiter) as [i|] eqn:Hfind.
  - apply IH. pose proof (find_not_empty _ _ _ Hfind Hd) as Hne.
    pose proof (length_erase_front entry (i + String.length delimiter)).
    destruct entry; [done|]. destruct delimiter; [done|].
    cbn [String.length] in *. lia.
  - by eexists.
Qed.

Lemma parse_terminates (entry delimiter : string) :
  delimiter ≠ "" → ∃ tokens, parse entry delimiter = Normal tokens.
Proof. intros Hd. apply parse_loop_terminates; [done|lia]. Qed.

End termination.

(** ** The tokenizer *)

Section tokenizer.
Variable c : ascii.

(** One turn of the loop of [parse] on a one-character delimiter. *)
Lemma find_char_split (s : string) :
  match find s (String c "") with
  | None => split c s = [s]
  | Some i =>
      split c s = substr s 0 i :: split c (erase s 0 (i + 1))
      ∧ (String.length (erase s 0 (i + 1)) < String.length s)%nat
  end.
Proof.
  induction s as [|x r IH].
  - done.
  - cbn [find]. rewrite prefix_char.
    cbn [split]. destruct (Ascii.eqb x c) eqn:Hx.
    + unfold substr, erase. cbn.
      rewrite Nat.sub_0_r, substring_all, append_nil_l. split; [done|lia].
    + destruct (find r (String c "")) as [i|]; cbn.
      * destruct IH as [-> Hlen]. unfold substr, erase in *. cbn in *.
        rewrite substring_0_0, append_nil_l in *. split; [done|lia].
      * by rewrite IH.
Qed.

Lemma parse_loop_split (fuel : nat) (s : string) (parsed : list string) :
  (String.length s < fuel)%nat →
  parse_loop fuel s (String c "") parsed = Normal (parsed ++ split c s).
Proof.
  revert s parsed. induction fuel as [|fuel IH]; intros s parsed Hlt; [lia|].
  cbn [parse_loop]. pose proof (find_char_split s) as Hs.
  destruct (find s (String c "")) as [i|].
  - destruct Hs as [-> Hlen]. cbn [String.length].
    rewrite IH by lia. by rewrite <- app_assoc.
  - by rewrite Hs.
Qed.

(** [parse] on a one-character delimiter terminates and splits. *)
Lemma parse_char (s : string) : parse s (String c "") = Normal (split c s).
Proof. unfold parse. by rewrite parse_loop_split by lia. Qed.

Lemma split_not_nil (s : string) : split c s ≠ [].
Proof.
  induction s as [|x r IH]; cbn; [done|].
  destruct (Ascii.eqb x c); [done|]. by destruct (split c r).
Qed.

Lemma split_absent (s : string) : mem_char c s = false → split c s = [s].
Proof.
  induction s as [|x r IH]; cbn; [done|]. intros H.
  apply orb_false_iff in H as [Hx Hr].
  rewrite Ascii.eqb_sym, Hx. by rewrite IH.
Qed.

Lemma split_app (a b : string) :
  mem_char c a = false → split c (a +:+ String c b) = a :: split c b.
Proof.
  induction a as [|x a IH]; cbn; intros H.
  - rewrite append_nil_l. cbn. by rewrite Ascii.eqb_refl.
  - apply orb_false_iff in H as [Hx Ha].
    rewrite append_cons. cbn. rewrite Ascii.eqb_sym, Hx. by rewrite IH.
Qed.

Lemma join_cons_char (x : ascii) (t : string) (ts : list string) :
  join c (String x t :: ts) = String x (join c (t :: ts)).
Proof. by destruct ts. Qed.

Lemma join_split (s : string) : join c (split c s) = s.
Proof.
  induction s as [|x r IH]; [done|]. cbn [split].
  pose proof (split_not_nil r) as Hne.
  destruct (Ascii.eqb x c) eqn:Hx.
  - apply Ascii.eqb_eq in Hx as ->.
    destruct (split c r) as [|t ts]; [done|].
    change (join c ("" :: t :: ts)) with ("" +:+ String c (join c (t :: ts))).
    by rewrite append_nil_l, IH.
  - destruct (split c r) as [|t ts]; [done|].
    by rewrite join_cons_char, IH.
Qed.

End tokenizer.

(** ** Numeric tokens *)

Section numbers.

Lemma mem_char_digits (c : ascii) : mem_char c "0123456789" = isdigit c.
Proof. by destruct c as [[] [] [] [] [] [] [] []]. Qed.

Lemma isdigit_range (c : ascii) :
  isdigit c = true → (0 ≤ digit_value c ≤ 9)%Z.
Proof.
  unfold isdigit, digit_value. intros H.
  apply andb_true_iff in H as [H1 H2].
  apply Nat.leb_le in H1, H2. lia.
Qed.

Lemma isdigit_plain (c : ascii) :
  isdigit c = true →
  isspace c = false ∧ c ≠ "-"%char ∧ c ≠ "+"%char ∧ c ≠ "*"%char
  ∧ c ≠ "."%char ∧ c ≠ ":"%char ∧ c ≠ ","%char.
Proof. by destruct c as [[] [] [] [] [] [] [] []]. Qed.

(** [is_pint] accepts exactly the strings of decimal digits, the empty
    string among them. *)
Lemma is_pint_all_digits (s : string) : is_pint s = all_digits s.
Proof.
  unfold is_pint. induction s as [|c r IH]; [done|].
  cbn [find_first_not_of all_digits]. rewrite mem_char_digits.
  destruct (isdigit c); [|done]. cbn. rewrite <- IH.
  by destruct (find_first_not_of r "0123456789").
Qed.

Lemma all_digits_absent (c : ascii) (t : string) :
  isdigit c = false → all_digits t = true → mem_char c t = false.
Proof.
  intros Hc. induction t as [|x r IH]; [done|]. cbn. intros H.
  apply andb_true_iff in H as [Hx Hr]. rewrite IH by done.
  rewrite orb_false_r. apply Ascii.eqb_neq. congruence.
Qed.

Lemma integer_value_nonneg (t : string) :
  all_digits t = true → (0 ≤ integer_value t)%Z.
Proof.
  induction t as [|c r IH]; cbn [all_digits integer_value]; [done|].
  intros H. apply andb_true_iff in H as [Hc Hr].
  apply isdigit_range in Hc. specialize (IH Hr).
  assert (0 ≤ 10 ^ Z.of_nat (String.length r))%Z by (apply Z.pow_nonneg; lia).
  nia.
Qed.

Lemma accumulate_value (acc : Z) (t : string) :
  accumulate acc t
  = (acc * 10 ^ Z.of_nat (String.length t) + integer_value t)%Z.
Proof.
  revert acc. induction t as [|c r IH]; intros acc.
  - cbn. lia.
  - cbn [accumulate integer_value String.length]. rewrite IH.
    rewrite Nat2Z.inj_succ, Z.pow_succ_r by lia. ring.
Qed.

Lemma leading_digits_all (t : string) :
  all_digits t = true → leading_digits t = t.
Proof.
  induction t as [|c r IH]; cbn; [done|]. intros H.
  apply andb_true_iff in H as [-> Hr]. by rewrite IH.
Qed.

(** [stoi] on a string that passed [is_pint]. *)
Lemma stoi_all_digits (t : string) :
  all_digits t = true →
  stoi t =
    if String.eqb t "" then Throws invalid_argument
    else if (INT_MAX <? integer_value t)%Z then Throws out_of_range
    else Normal (integer_value t).
Proof.
  intros Hd. pose proof (integer_value_nonneg t Hd) as Hnn.
  destruct t as [|c r]; [done|].
  pose proof Hd as Hd'. cbn [all_digits] in Hd'.
  apply andb_true_iff in Hd' as [Hc Hr].
  destruct (isdigit_plain c Hc) as (Hsp & Hminus & Hplus & _).
  unfold stoi. cbn [skip_space]. rewrite Hsp.
  assert (match String c r with
          | String "-"%char rest => (true, rest)
          | String "+"%char rest => (false, rest)
          | _ => (false, String c r)
          end = (false, String c r)) as ->.
  { clear -Hminus Hplus. by destruct c as [[] [] [] [] [] [] [] []]. }
  rewrite leading_digits_all by done. cbn [String.eqb].
  rewrite accumulate_value, Z.mul_0_l, Z.add_0_l.
  replace (integer_value (String c r) <? INT_MIN)%Z with false; [done|].
  symmetry. apply Z.ltb_ge. unfold INT_MIN. lia.
Qed.

Lemma numeric_token_unfold (hi : Z) (t : string) :
  numeric_token hi t
  ↔ t ≠ "" ∧ all_digits t = true ∧ (integer_value t ≤ hi)%Z.
Proof.
  unfold numeric_token. rewrite eqb_eq_dec. split.
  - intros H. apply Is_true_true in H.
    repeat (apply andb_true_iff in H as [H ?]).
    apply negb_true_iff, bool_decide_eq_false in H.
    split_and!; [done..|]. by apply Z.leb_le.
  - intros (Hne & Hd & Hle). apply Is_true_true.
    rewrite bool_decide_eq_false_2 by done. rewrite Hd. cbn.
    apply andb_true_iff. split; apply Z.leb_le; [|done].
    by apply integer_value_nonneg.
Qed.

Lemma field_check_accepts (hi : Z) (t : string) :
  (hi ≤ INT_MAX)%Z →
  field_check hi t = Normal true ↔ numeric_token hi t.
Proof.
  intros Hhi. rewrite numeric_token_unfold. unfold field_check.
  destruct (all_digits t); cbn; [|by split; [|intros (_ & ? & _)]].
  rewrite eqb_eq_dec. case_bool_decide; [by split; [|intros (? & _)]|].
  destruct (Z.ltb_spec INT_MAX (integer_value t)).
  - split; [done|]. intros (_ & _ & ?). lia.
  - split.
    + intros [= H1]. apply Z.leb_le in H1. done.
    + intros (_ & _ & ?). f_equal. by apply Z.leb_le.
Qed.

Lemma is_port_unfold (port : string) :
  is_port port =
    if String.eqb port "*" then Normal true else field_check 65535 port.
Proof.
  unfold is_port, field_check. destruct (String.eqb port "*"); [done|].
  rewrite is_pint_all_digits.
  destruct (all_digits port) eqn:Hd; cbn; [|done].
  rewrite stoi_all_digits by done.
  destruct (String.eqb port ""); [done|].
  destruct (Z.ltb_spec INT_MAX (integer_value port)); [done|]. cbn.
  pose proof (integer_value_nonneg port Hd).
  replace (integer_value port <? 0)%Z with false
    by (symmetry; apply Z.ltb_ge; lia).
  rewrite orb_false_r, Z.gtb_ltb, Z.leb_antisym.
  by destruct (65535 <? integer_value port)%Z.
Qed.

Lemma is_ip_loop_unfold (token : string) (rest : list string) :
  is_ip_loop (token :: rest) =
    (ok ← field_check 255 token;
     if ok : bool then is_ip_loop rest else Normal false).
Proof.
  cbn [is_ip_loop]. unfold field_check. rewrite is_pint_all_digits.
  destruct (all_digits token) eqn:Hd; cbn; [|done].
  rewrite stoi_all_digits by done.
  destruct (String.eqb token ""); [done|].
  destruct (Z.ltb_spec INT_MAX (integer_value token)); [done|]. cbn.
  pose proof (integer_value_nonneg token Hd).
  replace (integer_value token <? 0)%Z with false
    by (symmetry; apply Z.ltb_ge; lia).
  rewrite orb_false_r, Z.gtb_ltb, Z.leb_antisym.
  by destruct (255 <? integer_value token)%Z.
Qed.

Lemma is_ip_loop_accepts (tokens : list string) :
  is_ip_loop tokens = Normal true ↔ Forall (numeric_token 255) tokens.
Proof.
  induction tokens as [|t ts IH]; [by split|].
  rewrite is_ip_loop_unfold, Forall_cons.
  rewrite <- IH, <- (field_check_accepts 255 t) by done.
  destruct (field_check 255 t) as [[]| | |]; cbn; intuition congruence.
Qed.

End numbers.

(** ** Endpoints *)

Section endpoints.

Lemma mem_char_app (c : ascii) (a b : string) :
  mem_char c (a +:+ b) = mem_char c a || mem_char c b.
Proof.
  induction a as [|x a IH]; [done|].
  rewrite append_cons. cbn. by rewrite IH, orb_assoc.
Qed.

(** A numeric token holds none of the separators and is not the
    wildcard. *)
Lemma numeric_token_plain (hi : Z) (t : string) :
  numeric_token hi t →
  mem_char ":" t = false ∧ mem_char "." t = false
  ∧ mem_char "," t = false ∧ t ≠ wildcard.
Proof.
  intros (Hne & Hd & _)%numeric_token_unfold.
  split_and!; try by apply all_digits_absent.
  intros ->. discriminate Hd.
Qed.

Lemma dotted_quad_split (a d1 d2 d3 d4 : string) :
  a = d1 +:+ "." +:+ d2 +:+ "." +:+ d3 +:+ "." +:+ d4 →
  numeric_token 255 d1 → numeric_token 255 d2 →
  numeric_token 255 d3 → numeric_token 255 d4 →
  split "." a = [d1; d2; d3; d4].
Proof.
  intros -> (_ & H1 & _)%numeric_token_plain (_ & H2 & _)%numeric_token_plain
    (_ & H3 & _)%numeric_token_plain (_ & H4 & _)%numeric_token_plain.
  rewrite !append_char, !split_app by done. by rewrite split_absent.
Qed.

Lemma dotted_quad_plain (a : string) :
  dotted_quad a →
  mem_char ":" a = false ∧ mem_char "," a = false ∧ a ≠ wildcard.
Proof.
  intros (d1 & d2 & d3 & d4 & -> & H1 & H2 & H3 & H4).
  apply numeric_token_plain in H1 as (C1 & _ & K1 & _).
  apply numeric_token_plain in H2 as (C2 & _ & K2 & _).
  apply numeric_token_plain in H3 as (C3 & _ & K3 & _).
  apply numeric_token_plain in H4 as (C4 & _ & K4 & _).
  split_and!.
  - rewrite !mem_char_app. by rewrite C1, C2, C3, C4.
  - rewrite !mem_char_app. by rewrite K1, K2, K3, K4.
  - intros Heq. apply (f_equal (mem_char ".")) in Heq.
    rewrite !mem_char_app in Heq. cbn in Heq.
    by rewrite !orb_true_r in Heq.
Qed.

Lemma valid_address_plain (a : string) :
  valid_address a → mem_char ":" a = false ∧ mem_char "," a = false.
Proof.
  intros [->|H]; [done|]. apply dotted_quad_plain in H. tauto.
Qed.

Lemma valid_port_plain (p : string) :
  valid_port p → mem_char ":" p = false ∧ mem_char "," p = false.
Proof.
  intros [->|H]; [done|]. apply numeric_token_plain in H. tauto.
Qed.

(** [is_port] returns [true] exactly on the valid port texts. *)
Lemma is_port_accepts (port : string) :
  is_port port = Normal true ↔ valid_port port.
Proof.
  rewrite is_port_unfold, eqb_eq_dec. unfold valid_port, wildcard.
  case_bool_decide as Hw.
  - split; [by left|done].
  - rewrite field_check_accepts by done. tauto.
Qed.

(** [is_ip] returns [true] exactly on the valid address texts. *)
Lemma is_ip_accepts (ip : string) :
  is_ip ip = Normal true ↔ valid_address ip.
Proof.
  unfold is_ip, valid_address, wildcard. rewrite eqb_eq_dec.
  case_bool_decide as Hw; [by split; [left|]|].
  rewrite parse_char. cbn. split.
  - intros H. right.
    destruct (length (split "." ip) =? 4) eqn:Hlen; [|done]. cbn in H.
    apply Nat.eqb_eq in Hlen. apply is_ip_loop_accepts in H.
    pose proof (join_split "." ip) as Hjoin.
    destruct (split "." ip) as [|d1 [|d2 [|d3 [|d4 [|]]]]]; try done.
    apply Forall_cons in H as [H1 H]. apply Forall_cons in H as [H2 H].
    apply Forall_cons in H as [H3 H]. apply Forall_cons in H as [H4 _].
    exists d1, d2, d3, d4. by rewrite <- Hjoin.
  - intros [?|(d1 & d2 & d3 & d4 & Heq & H1 & H2 & H3 & H4)]; [done|].
    rewrite (dotted_quad_split _ _ _ _ _ Heq) by done. cbn [length Nat.eqb negb].
    apply is_ip_loop_accepts. by repeat constructor.
Qed.

(** [is_valid], one case per shape of the colon split. *)
Lemma is_valid_unfold (pair : string) (is_value : bool) :
  is_valid pair is_value =
    match split ":" pair with
    | [p0; p1] =>
        if is_value && (String.eqb p0 "*" || String.eqb p1 "*")
        then Normal false
        else if String.eqb p0 "*" && String.eqb p1 "*" then Normal false
        else
          ok_ip ← is_ip p0;
          if negb ok_ip then Normal false
          else ok_port ← is_port p1; Normal ok_port
    | _ => Normal false
    end.
Proof.
  unfold is_valid. rewrite parse_char. cbn [mbind outcome_bind].
  destruct (split ":" pair) as [|p0 [|p1 [|]]]; try done.
  cbn. destruct (is_value && _); [done|].
  destruct (String.eqb p0 "*" && _); [done|].
  destruct (is_ip p0) as [[]| | |]; cbn; try done.
  by destruct (is_port p1) as [[]| | |].
Qed.

Lemma endpoint_split (text a p : string) :
  endpoint text a p → split ":" text = [a; p].
Proof.
  intros (-> & [Ha _]%valid_address_plain & [Hp _]%valid_port_plain).
  by rewrite append_char, split_app, split_absent.
Qed.

Lemma endpoint_plain (text a p : string) :
  endpoint text a p → mem_char "," text = false.
Proof.
  intros (-> & [_ Ha]%valid_address_plain & [_ Hp]%valid_port_plain).
  by rewrite !mem_char_app, Ha, Hp.
Qed.

(** [is_valid] returns [true] exactly on the valid Endpoint texts that
    are not fully wildcard and, for a value, hold no wildcard at all. *)
Lemma is_valid_accepts (pair : string) (is_value : bool) :
  is_valid pair is_value = Normal true
  ↔ ∃ a p, endpoint pair a p
      ∧ ¬ (a = wildcard ∧ p = wildcard)
      ∧ (is_value = true → a ≠ wildcard ∧ p ≠ wildcard).
Proof.
  rewrite is_valid_unfold. unfold wildcard. split.
  - intros H. pose proof (join_split ":" pair) as Hjoin.
    destruct (split ":" pair) as [|a [|p [|]]]; try done.
    exists a, p. rewrite !eqb_eq_dec in H.
    destruct (is_value && _) eqn:E1; [done|].
    destruct (bool_decide (a = "*") && _) eqn:E2; [done|].
    destruct (is_ip a) as [[]| | |] eqn:Hip; cbn in H; try done.
    destruct (is_port p) as [[]| | |] eqn:Hport; cbn in H; try done.
    apply is_ip_accepts in Hip. apply is_port_accepts in Hport.
    split_and!; [by split|..].
    + intros [-> ->]. done.
    + intros ->. cbn in E1. apply orb_false_iff in E1 as [Ea Ep].
      by apply bool_decide_eq_false in Ea, Ep.
  - intros (a & p & He & Hnot & Hval).
    rewrite (endpoint_split _ _ _ He). destruct He as (_ & Ha & Hp).
    apply is_ip_accepts in Ha. apply is_port_accepts in Hp.
    rewrite Ha, Hp, !eqb_eq_dec. cbn.
    destruct is_value; cbn.
    + destruct Hval as [? ?]; [done|].
      by rewrite !bool_decide_eq_false_2.
    + do 2 case_bool_decide; try done. tauto.
Qed.

Lemma is_valid_source (text : string) :
  is_valid text false = Normal true ↔ valid_source text.
Proof.
  rewrite is_valid_accepts. unfold valid_source.
  split.
  - intros (a & p & ? & ? & _). by exists a, p.
  - intros (a & p & ? & ?). exists a, p. by split_and!.
Qed.

Lemma is_valid_destination (text : string) :
  is_valid text true = Normal true ↔ concrete_endpoint text.
Proof.
  rewrite is_valid_accepts. unfold concrete_endpoint. split.
  - intros (a & p & ? & ? & H). exists a, p.
    destruct H as [? ?]; by split_and?.
  - intros (a & p & ? & ? & ?). exists a, p. split_and!; [done|tauto|done].
Qed.

End endpoints.

(** ** The translation table *)

Section table.
Implicit Types (dictionary table : gmap string string).
Implicit Types (entry key value src dst : string).

(** [save], one case per shape of the comma split. *)
Lemma save_unfold dictionary entry :
  save dictionary entry =
    match split "," entry with
    | [e0; e1] =>
        v0 ← is_valid e0 false;
        if negb v0 then Normal (INVALID, dictionary)
        else
          v1 ← is_valid e1 true;
          if negb v1 then Normal (INVALID, dictionary)
          else Normal (OK, <[e0 := e1]> dictionary)
    | _ => Normal (INVALID, dictionary)
    end.
Proof.
  unfold save, parse_entry. rewrite parse_char. cbn [mbind outcome_bind].
  destruct (split "," entry) as [|e0 [|e1 [|]]]; try done. cbn.
  destruct (is_valid e0 false) as [[]| | |]; cbn; try done.
  by destruct (is_valid e1 true) as [[]| | |].
Qed.

Lemma rule_split src dst :
  valid_source src → concrete_endpoint dst →
  split "," (src +:+ "," +:+ dst) = [src; dst].
Proof.
  intros (a & p & Hs%endpoint_plain & _) (a' & p' & Hd%endpoint_plain & _).
  by rewrite append_char, split_app, split_absent.
Qed.

(** [save] stores exactly the valid rules. *)
Lemma save_ok_iff dictionary entry table :
  save dictionary entry = Normal (OK, table)
  ↔ ∃ src dst, entry = src +:+ "," +:+ dst
      ∧ valid_source src ∧ concrete_endpoint dst
      ∧ table = <[src := dst]> dictionary.
Proof.
  rewrite save_unfold. split.
  - intros H. pose proof (join_split "," entry) as Hjoin.
    destruct (split "," entry) as [|src [|dst [|]]]; try done.
    destruct (is_valid src false) as [[]| | |] eqn:Hsrc; cbn in H; try done.
    destruct (is_valid dst true) as [[]| | |] eqn:Hdst; cbn in H; try done.
    exists src, dst. apply is_valid_source in Hsrc.
    apply is_valid_destination in Hdst.
    split_and!; [by rewrite <- Hjoin|done..|congruence].
  - intros (src & dst & -> & Hsrc & Hdst & ->).
    rewrite rule_split by done.
    apply is_valid_source in Hsrc. apply is_valid_destination in Hdst.
    by rewrite Hsrc, Hdst.
Qed.

Lemma save_valid_rule dictionary src dst :
  valid_source src → concrete_endpoint dst →
  save dictionary (src +:+ "," +:+ dst)
  = Normal (OK, <[src := dst]> dictionary).
Proof. intros. apply save_ok_iff. by exists src, dst. Qed.

(** A call of [save] that returns reports [OK] or [INVALID], and leaves
    the table as it was unless it reports [OK]. *)
Lemma save_returns dictionary entry status table :
  save dictionary entry = Normal (status, table) →
  status = OK ∨ (status = INVALID ∧ table = dictionary).
Proof.
  rewrite save_unfold.
  destruct (split "," entry) as [|e0 [|e1 [|]]];
    try (intros [= <- <-]; by right).
  destruct (is_valid e0 false) as [[]| | |]; cbn; try done;
    try (intros [= <- <-]; by right).
  destruct (is_valid e1 true) as [[]| | |]; cbn; try done;
    intros [= <- <-]; first [by left | by right].
Qed.

Lemma subscript_present dictionary key dst :
  dictionary !! key = Some dst → subscript dictionary key = (dst, dictionary).
Proof. unfold subscript. by intros ->. Qed.

(** The lookup part of [translate]: the query passed validation, its
    first two colon fields are [p0] and [p1]. *)
Lemma translate_lookup dictionary key value p0 p1 rest :
  split ":" key = p0 :: p1 :: rest →
  is_ip p0 = Normal true → is_port p1 = Normal true →
  p0 ≠ wildcard → p1 ≠ wildcard →
  translate dictionary key value =
    Normal match first_present dictionary [key; p0 +:+ ":*"; "*:" +:+ p1] with
           | Some dst => (OK, dst, dictionary)
           | None => (NO_MATCH, value, dictionary)
           end.
Proof.
  intros Hsplit Hip Hport H0 H1. unfold translate, wildcard in *.
  rewrite parse_char, Hsplit. cbn [mbind outcome_bind].
  unfold not_ip_or_not_port, at_index. cbn [lookup list_lookup].
  cbn [mbind outcome_bind]. rewrite Hip, Hport. cbn.
  rewrite !eqb_eq_dec, !bool_decide_eq_false_2 by done. cbn.
  destruct (dictionary !! key) as [d|] eqn:Hk.
  { by rewrite (subscript_present _ _ _ Hk). }
  destruct (dictionary !! (p0 +:+ ":*")) as [d|] eqn:Hkp.
  { by rewrite (subscript_present _ _ _ Hkp). }
  destruct (dictionary !! ("*:" +:+ p1)) as [d|] eqn:Hki; [|done].
  by rewrite (subscript_present _ _ _ Hki).
Qed.

Lemma concrete_endpoint_fields text :
  concrete_endpoint text →
  ∃ a p, text = a +:+ ":" +:+ p ∧ dotted_quad a ∧ numeric_token 65535 p.
Proof.
  intros (a & p & (-> & [?|Ha] & [?|Hp]) & Hna & Hnp); try done.
  by exists a, p.
Qed.

Lemma translate_concrete dictionary a p value :
  dotted_quad a → numeric_token 65535 p →
  translate dictionary (a +:+ ":" +:+ p) value =
    Normal match first_present dictionary (candidates a p) with
           | Some dst => (OK, dst, dictionary)
           | None => (NO_MATCH, value, dictionary)
           end.
Proof.
  intros Ha Hp. apply (translate_lookup _ _ _ a p []).
  - apply endpoint_split. split_and!; [done|by right|by right].
  - apply is_ip_accepts. by right.
  - apply is_port_accepts. by right.
  - by apply dotted_quad_plain in Ha as (_ & _ & ?).
  - by apply numeric_token_plain in Hp as (_ & _ & _ & ?).
Qed.

(** [translate] never changes the table. *)
Lemma translate_table dictionary key value status value' table :
  translate dictionary key value = Normal (status, value', table) →
  table = dictionary.
Proof.
  unfold translate. rewrite parse_char. cbn [mbind outcome_bind].
  destruct (not_ip_or_not_port _ _) as [[]| | |]; cbn; try done.
  { by intros [= _ _ <-]. }
  destruct (at_index _ 0) as [p0| | |]; cbn; try done.
  destruct (at_index _ 1) as [p1| | |]; cbn; try done.
  destruct (_ || _); [by intros [= _ _ <-]|].
  destruct (dictionary !! key) as [d|] eqn:Hk.
  { rewrite (subscript_present _ _ _ Hk). by intros [= _ _ <-]. }
  destruct (dictionary !! (p0 +:+ ":*")) as [d|] eqn:Hkp.
  { rewrite (subscript_present _ _ _ Hkp). by intros [= _ _ <-]. }
  destruct (dictionary !! ("*:" +:+ p1)) as [d|] eqn:Hki.
  { rewrite (subscript_present _ _ _ Hki). by intros [= _ _ <-]. }
  by intros [= _ _ <-].
Qed.

(** A query whose port field is the wildcard and whose address field is
    a valid address is rejected before any lookup. *)
Lemma translate_wildcard_port dictionary a value :
  valid_address a →
  translate dictionary (a +:+ ":*") value = Normal (INVALID, value, dictionary).
Proof.
  intros Ha. unfold translate. rewrite parse_char.
  rewrite (endpoint_split _ a "*") by (split_and!; [done..|by left]).
  apply is_ip_accepts in Ha. cbn [mbind outcome_bind].
  unfold not_ip_or_not_port, at_index. cbn [lookup list_lookup].
  cbn [mbind outcome_bind]. rewrite Ha. cbn.
  by rewrite orb_true_r.
Qed.

(** The same for the address field, when the port field is a valid
    port. *)
Lemma translate_wildcard_address dictionary p value :
  valid_port p →
  translate dictionary ("*:" +:+ p) value = Normal (INVALID, value, dictionary).
Proof.
  intros Hp. unfold translate. rewrite parse_char.
  rewrite (endpoint_split _ "*" p) by (split_and!; [done|by left|done]).
  apply is_port_accepts in Hp. cbn [mbind outcome_bind].
  unfold not_ip_or_not_port, at_index. cbn [lookup list_lookup].
  cbn [mbind outcome_bind]. by rewrite Hp.
Qed.

(** A query with a wildcard in one of its first two fields is never
    looked up: when [translate] returns on it, it returns [INVALID]. *)
Lemma translate_wildcard_returns dictionary key value p0 p1 rest result :
  split ":" key = p0 :: p1 :: rest →
  p0 = wildcard ∨ p1 = wildcard →
  translate dictionary key value = Normal result →
  result = (INVALID, value, dictionary).
Proof.
  intros Hsplit Hw. unfold translate. rewrite parse_char, Hsplit.
  cbn [mbind outcome_bind]. unfold not_ip_or_not_port, at_index.
  cbn [lookup list_lookup mbind outcome_bind].
  destruct (is_ip p0) as [[]| | |]; cbn; try done; [|congruence].
  destruct (is_port p1) as [[]| | |]; cbn; try done; [|congruence].
  rewrite !eqb_eq_dec.
  assert (bool_decide (p0 = "*") || bool_decide (p1 = "*") = true) as ->.
  { apply orb_true_iff. destruct Hw; [left|right]; by apply bool_decide_eq_true. }
  congruence.
Qed.

Lemma first_present_insert_ne table keys k d :
  k ∉ keys → first_present (<[k := d]> table) keys = first_present table keys.
Proof.
  induction keys as [|k' keys IH]; [done|]. intros Hk.
  apply not_elem_of_cons in Hk as [Hne Hk]. cbn.
  rewrite lookup_insert_ne by done. by rewrite IH.
Qed.

End table.

(** ** The test cases of [test()] in simple_nat.cpp *)

Section test_cases.

Example case_1_to_7 :
  Forall (λ entry, save ∅ entry = Normal (INVALID, ∅))
    ["192.168.0.1:80"; "10.0.1.1:port,192.168.0.1:80";
     "1.0.1:8082,192.168.0.3:80"; "300.0.1.1:8082,192.168.0.3:80";
     "10.0.1.1:8082,192.168.0.3:80,192.168.0.3:85";
     "*:*,192.168.0.1:80"; "10.0.1.1:8080,*:80"].
Proof. repeat constructor. Qed.

Example case_8 :
  save ∅ "10.0.1.1:8080,192.168.0.1:80" = Normal (OK, nat8)
  ∧ translate nat8 "10.0.1.1:8085" "" = Normal (NO_MATCH, "", nat8).
Proof. split; by vm_compute. Qed.

Example case_9_to_11 :
  save nat8 "*:8082,192.168.0.1:81" = Normal (OK, nat9)
  ∧ translate nat9 "*:8082" "" = Normal (INVALID, "", nat9)
  ∧ translate nat9 "10.0.1.1:8082" "" = Normal (OK, "192.168.0.1:81", nat9)
  ∧ translate nat9 "10.0.1.1:8080" "" = Normal (OK, "192.168.0.1:80", nat9).
Proof. split_and!; by vm_compute. Qed.

Example case_12 :
  save nat9 "10.0.1.2:*,192.168.0.1:83" = Normal (OK, nat12)
  ∧ translate nat12 "10.0.1.2:8085" "" = Normal (OK, "192.168.0.1:83", nat12).
Proof. split; by vm_compute. Qed.

End test_cases.

(** ** The claims of the specification *)

Section claims.
Implicit Types (table : gmap string string).

(** C1: a query text that does not split on ':' into exactly two parts
    should make Translate return INVALID and leave the destination alone.
    The code does not test the number of parts: the query
    "1.2.3.4:80:90" has three, passes the field checks on the first two,
    and is looked up; it yields NO_MATCH on the empty table and OK with a
    destination once the rule "1.2.3.4:*,5.6.7.8:9" is stored. A query
    without ':' whose text is a valid address reads [parsed[1]] out of
    bounds. *)
Theorem translate_part_count_unchecked :
  parse "1.2.3.4:80:90" ":" = Normal ["1.2.3.4"; "80"; "90"]
  ∧ translate ∅ "1.2.3.4:80:90" "" = Normal (NO_MATCH, "", ∅)
  ∧ (∃ table,
       save ∅ "1.2.3.4:*,5.6.7.8:9" = Normal (OK, table)
       ∧ translate table "1.2.3.4:80:90" ""
         = Normal (OK, "5.6.7.8:9", table))
  ∧ parse "1.2.3.4" ":" = Normal ["1.2.3.4"]
  ∧ translate ∅ "1.2.3.4" "" = Undefined.
Proof.
  split_and!; try by vm_compute.
  exists (<["1.2.3.4:*" := "5.6.7.8:9"]> ∅). split; by vm_compute.
Qed.

(** C2: no input should make DefineRule or Translate throw. The code
    calls [stoi] on every token [is_pint] lets through, the empty token
    and the tokens beyond [int] among them: DefineRule on
    "1.2.3.4:,1.2.3.4:80" and Translate on "1.2.3.4:" leave by
    [invalid_argument], DefineRule on "1.2.3.4:99999999999,1.2.3.4:80"
    by [out_of_range], whatever the table. *)
Theorem save_translate_throw table value :
  is_pint "" = true
  ∧ save table "1.2.3.4:,1.2.3.4:80" = Throws invalid_argument
  ∧ translate table "1.2.3.4:" value = Throws invalid_argument
  ∧ save table "1.2.3.4:99999999999,1.2.3.4:80" = Throws out_of_range.
Proof.
  split_and!; [done|..].
  - rewrite save_unfold. by vm_compute.
  - unfold translate. rewrite parse_char. by vm_compute.
  - rewrite save_unfold. by vm_compute.
Qed.

(** C3: for every table and every valid, fully concrete query
    [address:port], Translate probes [address:port], then [address:*],
    then [*:port], returns OK with the destination stored under the
    first of them present, and NO_MATCH exactly when none is present; an
    exact rule wins over both wildcard rules. *)
Theorem translate_probes_in_order table address port value :
  dotted_quad address → numeric_token 65535 port →
  let exact := address +:+ ":" +:+ port in
  let any_port := address +:+ ":*" in
  let any_address := "*:" +:+ port in
  translate table exact value =
    Normal match table !! exact with
           | Some dst => (OK, dst, table)
           | None =>
               match table !! any_port with
               | Some dst => (OK, dst, table)
               | None =>
                   match table !! any_address with
                   | Some dst => (OK, dst, table)
                   | None => (NO_MATCH, value, table)
                   end
               end
           end
  ∧ ((∃ value' table',
        translate table exact value = Normal (NO_MATCH, value', table'))
     ↔ table !! exact = None ∧ table !! any_port = None
       ∧ table !! any_address = None)
  ∧ (∀ dst, table !! exact = Some dst →
       translate table exact value = Normal (OK, dst, table)).
Proof.
  intros Ha Hp exact any_port any_address.
  pose proof (translate_concrete table address port value Ha Hp) as H.
  cbn [candidates first_present] in H. fold exact any_port any_address in H.
  rewrite H. clear H.
  generalize (table !! exact) (table !! any_port) (table !! any_address).
  intros [d1|] [d2|] [d3|]; (split_and!; [done| |intros ? ?; by simplify_eq]);
    (split; [intros (v & t & Heq); by simplify_eq
            |intros (? & ? & ?); simplify_eq; by eexists _, _]).
Qed.

Lemma translate_probes_in_order_witness :
  dotted_quad "10.0.1.1" ∧ numeric_token 65535 "8082"
  ∧ translate nat9 "10.0.1.1:8082" "" = Normal (OK, "192.168.0.1:81", nat9).
Proof.
  assert (dotted_quad "10.0.1.1") as Ha by (by exists "10", "0", "1", "1").
  assert (numeric_token 65535 "8082") as Hp by done.
  split_and!; [done..|].
  destruct (translate_probes_in_order nat9 _ _ "" Ha Hp) as (H & _ & _).
  etrans; [exact H|]. by vm_compute.
Defined.

(** C4: DefineRule should return OK exactly on the texts [src,dst] with
    [src] a valid Endpoint that is not fully wildcard and [dst] a valid,
    fully concrete Endpoint, and INVALID on every other text. The code
    returns OK exactly on those texts ([save_ok_iff]), yet on
    "1.2.3.4:80,5.6.7.8:", whose second part has an empty port and is no
    Endpoint, it throws instead of returning INVALID. *)
Theorem save_empty_destination_port table :
  parse "1.2.3.4:80,5.6.7.8:" "," = Normal ["1.2.3.4:80"; "5.6.7.8:"]
  ∧ parse "5.6.7.8:" ":" = Normal ["5.6.7.8"; ""]
  ∧ ¬ concrete_endpoint "5.6.7.8:"
  ∧ save table "1.2.3.4:80,5.6.7.8:" = Throws invalid_argument.
Proof.
  split_and!; [done..| |].
  - intros H%is_valid_destination. by vm_compute in H.
  - rewrite save_unfold. by vm_compute.
Qed.

(** C5: for every valid rule with a fully concrete source [src] and
    destination [dst], DefineRule on the rule and then Translate on
    [src] returns OK and [dst]. *)
Theorem save_then_translate table src dst value :
  concrete_endpoint src → concrete_endpoint dst →
  ∃ table',
    save table (src +:+ "," +:+ dst) = Normal (OK, table')
    ∧ translate table' src value = Normal (OK, dst, table').
Proof.
  intros Hsrc Hdst. exists (<[src := dst]> table). split.
  - apply save_valid_rule; [|done].
    destruct Hsrc as (a & p & ? & ? & ?). exists a, p. tauto.
  - apply concrete_endpoint_fields in Hsrc as (a & p & -> & Ha & Hp).
    rewrite translate_concrete by done. cbn [candidates first_present].
    by rewrite lookup_insert_eq.
Qed.

Lemma save_then_translate_witness :
  concrete_endpoint "10.0.1.1:8080" ∧ concrete_endpoint "192.168.0.1:80"
  ∧ ∃ table',
      save ∅ "10.0.1.1:8080,192.168.0.1:80" = Normal (OK, table')
      ∧ translate table' "10.0.1.1:8080" ""
        = Normal (OK, "192.168.0.1:80", table').
Proof.
  assert (concrete_endpoint "10.0.1.1:8080") as Hsrc
    by (apply is_valid_destination; by vm_compute).
  assert (concrete_endpoint "192.168.0.1:80") as Hdst
    by (apply is_valid_destination; by vm_compute).
  split_and!; [done..|].
  exact (save_then_translate ∅ _ _ "" Hsrc Hdst).
Defined.

(** C6: field validation accepts an address exactly when it is "*" or
    four dot-separated tokens, each of decimal digits only and of value
    in 0..255, and a port exactly when it is "*" or a token of decimal
    digits only and of value in 0..65535; a character that is no digit,
    a sign included, rejects the token. *)
Theorem field_validation_accepts :
  (∀ address, is_ip address = Normal true
              ↔ address = "*" ∨ dotted_quad address)
  ∧ (∀ port, is_port port = Normal true
             ↔ port = "*" ∨ numeric_token 65535 port)
  ∧ (∀ token c, mem_char c token = true → isdigit c = false →
                is_pint token = false)
  ∧ (∀ port c, port ≠ "*" → mem_char c port = true → isdigit c = false →
               is_port port = Normal false)
  ∧ isdigit "-" = false ∧ isdigit "+" = false.
Proof.
  assert (∀ token c, mem_char c token = true → isdigit c = false →
                     is_pint token = false) as Hpint.
  { intros token c Hmem Hc. rewrite is_pint_all_digits.
    destruct (all_digits token) eqn:Hd; [|done].
    by rewrite (all_digits_absent c token) in Hmem. }
  split_and!; [apply is_ip_accepts|apply is_port_accepts|done| |done..].
  intros port c Hw Hmem Hc. unfold is_port.
  rewrite eqb_eq_dec, bool_decide_eq_false_2 by done.
  by rewrite (Hpint port c).
Qed.

(** C7: for every table, a query whose address field or port field is
    "*" should make Translate return INVALID without a lookup. The code
    runs [is_ip] and [is_port] on both fields before it looks for the
    wildcard, so the query "*:", with the wildcard address and an empty
    port, throws from [stoi]; with a valid other field the query is
    rejected as claimed ([translate_wildcard_address],
    [translate_wildcard_port]). *)
Theorem translate_wildcard_empty_port table value :
  parse "*:" ":" = Normal ["*"; ""]
  ∧ is_ip "*" = Normal true
  ∧ is_port "" = Throws invalid_argument
  ∧ translate table "*:" value = Throws invalid_argument.
Proof.
  split_and!; [done..|]. unfold translate. rewrite parse_char. by vm_compute.
Qed.

Lemma reachable_preserves (P : gmap string string → Prop) :
  P ∅ →
  (∀ table src dst, P table → valid_source src → concrete_endpoint dst →
                    P (<[src := dst]> table)) →
  ∀ table, reachable table → P table.
Proof.
  intros Hempty Hinsert table Hreach.
  induction Hreach as [|table entry status table' _ IH Hsave
                       |table key value status value' table' _ IH Htr].
  - done.
  - destruct (save_returns _ _ _ _ Hsave) as [->|[_ ->]]; [|done].
    apply save_ok_iff in Hsave as (src & dst & _ & ? & ? & ->).
    by apply Hinsert.
  - by rewrite (translate_table _ _ _ _ _ _ Htr).
Qed.

(** C8, as stated, fails for a rule source with a wildcard: after the
    rules "*:8082,192.168.0.1:81" and "*:8082,192.168.0.1:82" the table
    holds the second destination under "*:8082", and Translate on that
    source returns INVALID, not the second destination. *)
Lemma overwrite_wildcard_source_counterexample :
  valid_source "*:8082"
  ∧ concrete_endpoint "192.168.0.1:81" ∧ concrete_endpoint "192.168.0.1:82"
  ∧ ∃ t1 t2,
      save ∅ "*:8082,192.168.0.1:81" = Normal (OK, t1)
      ∧ save t1 "*:8082,192.168.0.1:82" = Normal (OK, t2)
      ∧ t2 !! "*:8082" = Some "192.168.0.1:82"
      ∧ translate t2 "*:8082" "" = Normal (INVALID, "", t2)
      ∧ translate t2 "*:8082" "" ≠ Normal (OK, "192.168.0.1:82", t2).
Proof.
  split_and!.
  - apply is_valid_source. by vm_compute.
  - apply is_valid_destination. by vm_compute.
  - apply is_valid_destination. by vm_compute.
  - exists (<["*:8082" := "192.168.0.1:81"]> ∅),
           (<["*:8082" := "192.168.0.1:82"]> ∅).
    split_and!; by vm_compute.
Qed.

(** C8, amended: for every table and every pair of valid rules with the
    same source text, DefineRule on the first and then on the second
    leaves the table holding the second destination, and only it, under
    that source key; when the source is fully concrete, a subsequent
    Translate on it returns the second destination. *)
Theorem save_overwrites table src dst1 dst2 value :
  valid_source src → concrete_endpoint dst1 → concrete_endpoint dst2 →
  ∃ t1 t2,
    save table (src +:+ "," +:+ dst1) = Normal (OK, t1)
    ∧ save t1 (src +:+ "," +:+ dst2) = Normal (OK, t2)
    ∧ t2 = <[src := dst2]> table
    ∧ t2 !! src = Some dst2
    ∧ (concrete_endpoint src →
       translate t2 src value = Normal (OK, dst2, t2)).
Proof.
  intros Hsrc H1 H2.
  exists (<[src := dst1]> table), (<[src := dst2]> table).
  split_and!.
  - by apply save_valid_rule.
  - rewrite save_valid_rule by done. by rewrite insert_insert_eq.
  - done.
  - apply lookup_insert_eq.
  - intros (a & p & -> & Ha & Hp)%concrete_endpoint_fields.
    rewrite translate_concrete by done. cbn [candidates first_present].
    by rewrite lookup_insert_eq.
Qed.

Lemma save_overwrites_witness :
  valid_source "10.0.1.1:8080"
  ∧ concrete_endpoint "192.168.0.1:80" ∧ concrete_endpoint "192.168.0.1:81"
  ∧ ∃ t1 t2,
      save nat9 "10.0.1.1:8080,192.168.0.1:80" = Normal (OK, t1)
      ∧ save t1 "10.0.1.1:8080,192.168.0.1:81" = Normal (OK, t2)
      ∧ t2 = <["10.0.1.1:8080" := "192.168.0.1:81"]> nat9
      ∧ t2 !! "10.0.1.1:8080" = Some "192.168.0.1:81"
      ∧ (concrete_endpoint "10.0.1.1:8080" →
         translate t2 "10.0.1.1:8080" ""
         = Normal (OK, "192.168.0.1:81", t2)).
Proof.
  assert (valid_source "10.0.1.1:8080") as Hsrc
    by (apply is_valid_source; by vm_compute).
  assert (concrete_endpoint "192.168.0.1:80") as H1
    by (apply is_valid_destination; by vm_compute).
  assert (concrete_endpoint "192.168.0.1:81") as H2
    by (apply is_valid_destination; by vm_compute).
  split_and!; [done..|].
  exact (save_overwrites nat9 _ _ _ "" Hsrc H1 H2).
Defined.

(** C9: in every table reachable from the empty table by calls of
    DefineRule and Translate, every key is a valid Endpoint text that is
    not fully wildcard and every value is a valid, fully concrete
    Endpoint text; a DefineRule that reports INVALID leaves the table
    unchanged. *)
Theorem reachable_table_valid table :
  reachable table →
  map_Forall (λ key dst, valid_source key ∧ concrete_endpoint dst) table
  ∧ (∀ entry table',
       save table entry = Normal (INVALID, table') → table' = table).
Proof.
  intros Hreach. split.
  - revert table Hreach. apply reachable_preserves.
    + apply map_Forall_empty.
    + intros table src dst IH Hsrc Hdst. by apply map_Forall_insert_2.
  - intros entry table' Hsave.
    by destruct (save_returns _ _ _ _ Hsave) as [?|[_ ->]].
Qed.

Lemma reachable_table_valid_witness :
  reachable nat9
  ∧ map_Forall (λ key dst, valid_source key ∧ concrete_endpoint dst) nat9
  ∧ (∀ entry table',
       save nat9 entry = Normal (INVALID, table') → table' = nat9).
Proof.
  assert (reachable nat9) as Hreach.
  { apply (reachable_save nat8 "*:8082,192.168.0.1:81" OK);
      [|by vm_compute].
    apply (reachable_save ∅ "10.0.1.1:8080,192.168.0.1:80" OK);
      [|by vm_compute].
    apply reachable_empty. }
  split; [done|]. exact (reachable_table_valid nat9 Hreach).
Defined.

(** C10: numeric tokens with leading zeros are valid, so DefineRule on
    "010.0.0.1:0080,1.2.3.4:80" returns OK and stores the key
    "010.0.0.1:0080"; keys are compared as text, so Translate on
    "10.0.0.1:80" does not return that rule: it answers NO_MATCH on the
    table holding only that rule, and on any table its answer is the one
    the other rules give. *)
Theorem leading_zeros_distinct_key table value :
  let stored := <["010.0.0.1:0080" := "1.2.3.4:80"]> table in
  let alone : gmap string string := <["010.0.0.1:0080" := "1.2.3.4:80"]> ∅ in
  numeric_token 255 "010" ∧ numeric_token 65535 "0080"
  ∧ save table "010.0.0.1:0080,1.2.3.4:80" = Normal (OK, stored)
  ∧ translate alone "10.0.0.1:80" value = Normal (NO_MATCH, value, alone)
  ∧ translate stored "10.0.0.1:80" value =
      Normal match first_present table (candidates "10.0.0.1" "80") with
             | Some dst => (OK, dst, stored)
             | None => (NO_MATCH, value, stored)
             end.
Proof.
  intros stored alone.
  assert (dotted_quad "10.0.0.1") as Ha by (by exists "10", "0", "0", "1").
  assert (numeric_token 65535 "80") as Hp by done.
  assert (∀ t : gmap string string,
            first_present (<["010.0.0.1:0080" := "1.2.3.4:80"]> t)
              (candidates "10.0.0.1" "80")
            = first_present t (candidates "10.0.0.1" "80")) as Hother.
  { intros t. apply first_present_insert_ne. unfold candidates.
    rewrite !not_elem_of_cons. split_and!; try done. apply not_elem_of_nil. }
  split_and!; [done..| | |].
  - apply (save_valid_rule table "010.0.0.1:0080" "1.2.3.4:80").
    + apply is_valid_source. by vm_compute.
    + apply is_valid_destination. by vm_compute.
  - etrans; [exact (translate_concrete alone _ _ value Ha Hp)|].
    unfold alone. by rewrite Hother.
  - etrans; [exact (translate_concrete stored _ _ value Ha Hp)|].
    unfold stored. by rewrite Hother.
Qed.

End claims.

(** * Further properties of the code *)

Import Driver.

#[local] Arguments main : simpl never.

(** ** [parse] on any delimiter *)

Section parse_general.
Implicit Types (entry delimiter s d : string) (tokens parsed : list string).

Lemma prefix_empty s : String.prefix "" s = true.
Proof. by destruct s. Qed.

Lemma prefix_cons x d y s :
  String.prefix (String x d) (String y s)
  = bool_decide (x = y) && String.prefix d s.
Proof.
  cbn. destruct (ascii_dec x y) as [->|Hne].
  - by rewrite bool_decide_eq_true_2.
  - by rewrite bool_decide_eq_false_2.
Qed.

Lemma prefix_decompose d s :
  String.prefix d s = true →
  s = d +:+ String.substring (String.length d)
                              (String.length s - String.length d) s.
Proof.
  revert s. induction d as [|x d IH]; intros s H.
  - cbn [String.length]. by rewrite Nat.sub_0_r, substring_all, append_nil_l.
  - destruct s as [|y s]; [done|]. rewrite prefix_cons in H.
    apply andb_true_iff in H as [Hxy Hp]. apply bool_decide_eq_true in Hxy as ->.
    rewrite append_cons. cbn [String.length String.substring Nat.sub].
    f_equal. by apply IH.
Qed.

(** The text up to the first occurrence, the delimiter, and what [erase]
    leaves make up the text. *)
Lemma find_decompose s d i :
  find s d = Some i →
  s = substr s 0 i +:+ d +:+ erase s 0 (i + String.length d).
Proof.
  revert i. induction s as [|x r IH]; intros i; cbn [find].
  - destruct (String.prefix d "") eqn:Hp; [|done]. intros [= <-].
    destruct d; [done|discriminate Hp].
  - destruct (String.prefix d (String x r)) eqn:Hp.
    + intros [= <-]. unfold substr, erase. cbn [Nat.add].
      rewrite substring_0_0, !append_nil_l. by apply prefix_decompose.
    + destruct (find r d) as [j|]; [|done]. cbn. intros [= <-].
      specialize (IH j eq_refl). unfold substr, erase in *. cbn.
      rewrite substring_0_0, append_nil_l in *. rewrite append_cons.
      by f_equal.
Qed.

Lemma prefix_substring d s n :
  String.prefix d (String.substring 0 n s) = true → String.prefix d s = true.
Proof.
  revert s n. induction d as [|x d IH]; intros s n H.
  - apply prefix_empty.
  - destruct s as [|y s], n as [|n]; try done.
    cbn [String.substring] in H. rewrite prefix_cons in *.
    apply andb_true_iff in H as [-> Hp]. by rewrite (IH _ _ Hp).
Qed.


Lemma find_empty_text d : d ≠ "" → find "" d = None.
Proof. by destruct d. Qed.

(** The delimiter does not occur in the token cut off before its first
    occurrence. *)
Lemma find_substr_none s d i :
  d ≠ "" → find s d = Some i → find (substr s 0 i) d = None.
Proof.
  intros Hd. revert i. induction s as [|x r IH]; intros i.
  - by rewrite find_empty_text.
  - cbn [find]. destruct (String.prefix d (String x r)) eqn:Hp.
    + intros [= <-]. unfold substr. rewrite substring_0_0.
      by apply find_empty_text.
    + destruct (find r d) as [j|] eqn:Hfind; [|done]. cbn. intros [= <-].
      unfold substr in *. cbn [String.substring find].
      destruct (String.prefix d (String x (String.substring 0 j r))) eqn:Hp'.
      * apply (prefix_substring d (String x r) (S j)) in Hp'. congruence.
      * by rewrite (IH j eq_refl).
Qed.

Lemma parse_loop_tokens fuel entry delimiter parsed tokens :
  delimiter ≠ "" →
  parse_loop fuel entry delimiter parsed = Normal tokens →
  ∃ rest, tokens = parsed ++ rest ∧ rest ≠ []
          ∧ join_with delimiter rest = entry
          ∧ Forall (λ token, find token delimiter = None) rest.
Proof.
  intros Hd. revert entry parsed.
  induction fuel as [|fuel IH]; intros entry parsed; [done|].
  cbn [parse_loop]. destruct (find entry delimiter) as [i|] eqn:Hfind.
  - intros (rest & -> & Hne & Hjoin & Hfree)%IH.
    exists (substr entry 0 i :: rest). split_and!.
    + by rewrite <- app_assoc.
    + done.
    + rewrite (find_decompose _ _ _ Hfind) at 2. rewrite <- Hjoin.
      by destruct rest.
    + constructor; [by apply find_substr_none|done].
  - intros [= <-]. exists [entry]. split_and!; try done.
    by constructor.
Qed.

Lemma split_length (c : ascii) s :
  length (split c s) = S (count_char c s).
Proof.
  induction s as [|x r IH]; [done|]. cbn [split count_char].
  destruct (Ascii.eqb x c); cbn [length]; [by rewrite IH|].
  pose proof (split_not_nil c r).
  destruct (split c r); [done|]. cbn in *. lia.
Qed.

Lemma split_free (c : ascii) s :
  Forall (λ token, mem_char c token = false) (split c s).
Proof.
  induction s as [|x r IH]; cbn [split].
  - by constructor.
  - destruct (Ascii.eqb x c) eqn:Hx; [by constructor|].
    pose proof (split_not_nil c r).
    destruct (split c r) as [|t ts]; [done|].
    apply Forall_cons in IH as [Ht Hts]. constructor; [|done].
    cbn. by rewrite Ascii.eqb_sym, Hx, Ht.
Qed.

(** X1: for every delimiter that is not empty, [parse] returns; the vector
    it returns is never empty, its tokens joined by the delimiter give the
    entry back, and the delimiter occurs in none of them. *)
Theorem parse_round_trip entry delimiter :
  delimiter ≠ "" →
  ∃ tokens, parse entry delimiter = Normal tokens
            ∧ tokens ≠ []
            ∧ join_with delimiter tokens = entry
            ∧ Forall (λ token, find token delimiter = None) tokens.
Proof.
  intros Hd. destruct (parse_terminates entry delimiter Hd) as [tokens Hp].
  exists tokens. split; [done|].
  apply parse_loop_tokens in Hp as (rest & -> & ? & ? & ?); done.
Qed.

Lemma parse_round_trip_witness :
  "--" ≠ ""
  ∧ ∃ tokens, parse "a--b-c--" "--" = Normal tokens
              ∧ tokens ≠ []
              ∧ join_with "--" tokens = "a--b-c--"
              ∧ Forall (λ token, find token "--" = None) tokens.
Proof.
  assert ("--" ≠ "") as Hd by done.
  split; [done|]. exact (parse_round_trip "a--b-c--" "--" Hd).
Defined.


(** X3: on a one-character delimiter [parse] returns one token more than
    the delimiter has occurrences in the entry, none of them holding the
    delimiter: two tokens exactly when the delimiter occurs once. *)
Theorem parse_token_count (c : ascii) entry :
  ∃ tokens, parse entry (String c "") = Normal tokens
            ∧ length tokens = S (count_char c entry)
            ∧ Forall (λ token, mem_char c token = false) tokens
            ∧ (length tokens = 2 ↔ count_char c entry = 1).
Proof.
  exists (split c entry). rewrite parse_char, split_length.
  split_and!; [done..|apply split_free|lia].
Qed.

End parse_general.

(** ** The field checks *)

Section field_checks.
Implicit Types (port ip token t : string).

Lemma all_digits_forall t :
  all_digits t = true ↔ ∀ c, mem_char c t = true → isdigit c = true.
Proof.
  induction t as [|x r IH]; cbn [all_digits mem_char]; [done|]. split.
  - intros [Hx Hr]%andb_true_iff c [Hc|Hc]%orb_true_iff.
    + by apply Ascii.eqb_eq in Hc as ->.
    + by apply IH.
  - intros H. apply andb_true_iff. split.
    + apply H. by rewrite Ascii.eqb_refl.
    + apply IH. intros c Hc. apply H. by rewrite Hc, orb_true_r.
Qed.

(** X4: [is_pint] answers true exactly when every character of the input
    is a decimal digit; the empty input, which has none, passes. *)
Theorem is_pint_digits_only token :
  (is_pint token = true ↔ ∀ c, mem_char c token = true → isdigit c = true)
  ∧ is_pint "" = true.
Proof. split; [|done]. rewrite is_pint_all_digits. apply all_digits_forall. Qed.

Lemma field_check_throws (hi : Z) t (e : exception) :
  field_check hi t = Throws e
  ↔ all_digits t = true
    ∧ ((t = "" ∧ e = invalid_argument)
       ∨ ((INT_MAX < integer_value t)%Z ∧ e = out_of_range)).
Proof.
  unfold field_check. destruct (all_digits t); cbn; [|by split; [|intros []]].
  rewrite eqb_eq_dec. case_bool_decide as Ht.
  - subst t. split.
    + intros [= <-]. split; [done|by left].
    + intros (_ & [[_ ->]|[? _]]); done.
  - destruct (Z.ltb_spec INT_MAX (integer_value t)) as [Hgt|Hle].
    + split.
      * intros [= <-]. split; [done|by right].
      * intros (_ & [[? _]|[_ ->]]); done.
    + split; [done|]. intros (_ & [[? _]|[? _]]); [done|lia].
Qed.

Lemma field_check_returns_or_throws (hi : Z) t :
  returns_or_throws (field_check hi t).
Proof. unfold field_check. by repeat case_match. Qed.

(** X5: [is_port] throws [invalid_argument] exactly on the empty text and
    [out_of_range] exactly on the digit strings above [INT_MAX]; it
    answers false exactly on the texts other than "*" that hold a
    character that is no digit or are digit strings above 65535 (and not
    above [INT_MAX]); it never reads out of bounds and never loops. *)
Theorem is_port_outcomes port :
  (is_port port = Throws invalid_argument ↔ port = "")
  ∧ (is_port port = Throws out_of_range
     ↔ all_digits port = true ∧ (INT_MAX < integer_value port)%Z)
  ∧ (is_port port = Normal false
     ↔ port ≠ "*"
       ∧ (all_digits port = false
          ∨ (all_digits port = true ∧ port ≠ ""
             ∧ (65535 < integer_value port ≤ INT_MAX)%Z)))
  ∧ returns_or_throws (is_port port).
Proof.
  rewrite is_port_unfold, eqb_eq_dec. case_bool_decide as Hw.
  - subst port. by split_and!; try (split; [|intros [? ?]]).
  - rewrite !field_check_throws. split_and!.
    + split.
      * by intros (_ & [[? _]|[_ ?]]).
      * intros ->. split; [done|by left].
    + split.
      * by intros (? & [[_ ?]|[? _]]).
      * intros [? ?]. split; [done|by right].
    + unfold field_check. destruct (all_digits port); cbn.
      * rewrite eqb_eq_dec. case_bool_decide as He.
        { split; [done|]. by intros (_ & [?|(_ & ? & _)]). }
        destruct (Z.ltb_spec INT_MAX (integer_value port)).
        { split; [done|]. intros (_ & [?|(_ & _ & ?)]); [done|lia]. }
        destruct (Z.leb_spec (integer_value port) 65535).
        { split; [done|]. intros (_ & [?|(_ & _ & ?)]); [done|lia]. }
        split; [|done]. intros _. split; [done|]. right. split_and!; [done..|lia|lia].
      * split; [|done]. intros _. split; [done|by left].
    + apply field_check_returns_or_throws.
Qed.

Lemma is_ip_loop_returns_or_throws (tokens : list string) :
  returns_or_throws (is_ip_loop tokens).
Proof.
  induction tokens as [|t ts IH]; [done|]. rewrite is_ip_loop_unfold.
  pose proof (field_check_returns_or_throws 255 t).
  by destruct (field_check 255 t) as [[]| | |].
Qed.

Lemma is_ip_loop_throws (tokens : list string) (e : exception) :
  is_ip_loop tokens = Throws e
  ↔ ∃ pre t post, tokens = pre ++ t :: post
      ∧ Forall (numeric_token 255) pre ∧ field_check 255 t = Throws e.
Proof.
  induction tokens as [|t0 ts IH].
  - split; [done|]. intros (pre & t & post & Heq & _). by destruct pre.
  - rewrite is_ip_loop_unfold.
    pose proof (field_check_accepts 255 t0 ltac:(done)) as Hacc.
    pose proof (field_check_returns_or_throws 255 t0) as Hret.
    destruct (field_check 255 t0) as [[]|e0| |] eqn:Hfc; cbn; try done.
    + rewrite IH. split.
      * intros (pre & t & post & -> & Hpre & Ht).
        exists (t0 :: pre), t, post. split_and!; [done| |done].
        constructor; [by apply Hacc|done].
      * intros (pre & t & post & Heq & Hpre & Ht).
        destruct pre as [|t1 pre]; simplify_eq/=; [congruence|].
        apply Forall_cons in Hpre as [_ Hpre]. by exists pre, t, post.
    + split; [done|]. intros (pre & t & post & Heq & Hpre & Ht).
      destruct pre as [|t1 pre]; simplify_eq/=; [congruence|].
      apply Forall_cons in Hpre as [Hpre _]. apply Hacc in Hpre. done.
    + split.
      * intros [= ->]. by exists [], t0, ts.
      * intros (pre & t & post & Heq & Hpre & Ht).
        destruct pre as [|t1 pre]; simplify_eq/=; [congruence|].
        apply Forall_cons in Hpre as [Hpre _]. apply Hacc in Hpre. done.
Qed.

(** X6: [is_ip] answers false, without a throw, on every text other than
    "*" that has not exactly three dots; it throws exactly when the text
    has four dot fields and the first of them that is no digit string of
    value up to 255 is empty ([invalid_argument]) or a digit string above
    [INT_MAX] ([out_of_range]); it never reads out of bounds and never
    loops. *)
Theorem is_ip_outcomes ip (e : exception) :
  (ip ≠ "*" → count_char "." ip ≠ 3 → is_ip ip = Normal false)
  ∧ (is_ip ip = Throws e
     ↔ ∃ pre t post,
         parse ip "." = Normal (pre ++ t :: post)
         ∧ length (pre ++ t :: post) = 4
         ∧ Forall (numeric_token 255) pre
         ∧ all_digits t = true
         ∧ ((t = "" ∧ e = invalid_argument)
            ∨ ((INT_MAX < integer_value t)%Z ∧ e = out_of_range)))
  ∧ returns_or_throws (is_ip ip).
Proof.
  unfold is_ip. rewrite eqb_eq_dec, parse_char. cbn [mbind outcome_bind].
  pose proof (split_length "." ip) as Hlen.
  case_bool_decide as Hw; split_and!; try done.
  - subst ip. split; [done|].
    intros (pre & t & post & [= Heq] & Hl & _). rewrite <- Heq in Hl. done.
  - intros _ Hc. destruct (Nat.eqb_spec (length (split "." ip)) 4); [lia|done].
  - destruct (Nat.eqb_spec (length (split "." ip)) 4) as [H4|H4]; cbn.
    + rewrite is_ip_loop_throws. split.
      * intros (pre & t & post & Heq & Hpre & Ht%field_check_throws).
        exists pre, t, post. rewrite <- Heq. by split_and!; try tauto.
      * intros (pre & t & post & [= Heq] & _ & Hpre & Hd & Ht).
        exists pre, t, post. split_and!; [done..|]. by apply field_check_throws.
    + split; [done|].
      intros (pre & t & post & [= Heq] & Hl & _). by rewrite <- Heq in Hl.
  - destruct (Nat.eqb_spec (length (split "." ip)) 4); cbn; [|done].
    apply is_ip_loop_returns_or_throws.
Qed.

End field_checks.

(** ** Rule validation *)

Section rule_validation.
Implicit Types (dictionary table : gmap string string).
Implicit Types (entry pair text src dst a p : string).

Lemma is_port_returns_or_throws p : returns_or_throws (is_port p).
Proof.
  rewrite is_port_unfold. destruct (String.eqb p "*"); [done|].
  apply field_check_returns_or_throws.
Qed.

Lemma is_ip_returns_or_throws a : returns_or_throws (is_ip a).
Proof.
  unfold is_ip. destruct (String.eqb a "*"); [done|].
  rewrite parse_char. cbn [mbind outcome_bind].
  destruct (negb _); [done|]. apply is_ip_loop_returns_or_throws.
Qed.

Lemma is_valid_returns_or_throws pair (is_value : bool) :
  returns_or_throws (is_valid pair is_value).
Proof.
  rewrite is_valid_unfold.
  destruct (split ":" pair) as [|p0 [|p1 [|]]]; try done.
  destruct (is_value && _); [done|]. destruct (_ && _); [done|].
  pose proof (is_ip_returns_or_throws p0).
  pose proof (is_port_returns_or_throws p1).
  destruct (is_ip p0) as [[]| | |]; try done. cbn.
  by destruct (is_port p1).
Qed.

Lemma concrete_is_source text : concrete_endpoint text → valid_source text.
Proof. intros (a & p & ? & ? & ?). exists a, p. tauto. Qed.

(** X7: [is_valid] in the role of a key answers true exactly on the valid
    Endpoint texts that are not "*:*", in the role of a value exactly on
    the valid Endpoint texts without a wildcard; what passes as a value
    passes as a key; the call never reads out of bounds and never loops. *)
Theorem is_valid_roles text (is_value : bool) :
  (is_valid text false = Normal true ↔ valid_source text)
  ∧ (is_valid text true = Normal true ↔ concrete_endpoint text)
  ∧ (is_valid text true = Normal true → is_valid text false = Normal true)
  ∧ returns_or_throws (is_valid text is_value).
Proof.
  split_and!.
  - apply is_valid_source.
  - apply is_valid_destination.
  - rewrite is_valid_source, is_valid_destination. apply concrete_is_source.
  - apply is_valid_returns_or_throws.
Qed.

(** X8: [is_valid] answers false before any number is parsed when the
    text has not exactly one colon, and, in the role of a value, when a
    field is "*" whatever the other field holds. *)
Theorem is_valid_early_rejections pair a p (is_value : bool) :
  (count_char ":" pair ≠ 1 → is_valid pair is_value = Normal false)
  ∧ (mem_char ":" a = false → is_valid (a +:+ ":*") true = Normal false)
  ∧ (mem_char ":" p = false → is_valid ("*:" +:+ p) true = Normal false).
Proof.
  rewrite !is_valid_unfold. split_and!.
  - intros Hc. pose proof (split_length ":" pair) as Hlen.
    destruct (split ":" pair) as [|p0 [|p1 [|]]]; try done.
    cbn in Hlen. lia.
  - intros Ha. rewrite (split_app ":" a "*") by done. cbn.
    by rewrite orb_true_r.
  - intros Hp. change ("*:" +:+ p) with ("*" +:+ String ":" p).
    by rewrite (split_app ":" "*"), split_absent.
Qed.

Lemma parse_entry_unfold entry :
  parse_entry entry =
    match split "," entry with
    | [e0; e1] =>
        v0 ← is_valid e0 false;
        if negb v0 then Normal []
        else v1 ← is_valid e1 true;
             if negb v1 then Normal [] else Normal [e0; e1]
    | _ => Normal []
    end.
Proof.
  unfold parse_entry. rewrite parse_char. cbn [mbind outcome_bind].
  by destruct (split "," entry) as [|e0 [|e1 [|]]].
Qed.

(** X9: [parse_entry] returns the two parts of the entry exactly when the
    entry is a valid rule, and the empty vector in every other case in
    which it returns: the vector [save] indexes is empty or has both
    elements. *)
Theorem parse_entry_shape entry src dst parsed :
  (parse_entry entry = Normal [src; dst]
   ↔ entry = src +:+ "," +:+ dst ∧ valid_source src ∧ concrete_endpoint dst)
  ∧ (parse_entry entry = Normal parsed → parsed = [] ∨ length parsed = 2)
  ∧ returns_or_throws (parse_entry entry).
Proof.
  rewrite parse_entry_unfold. split_and!.
  - split.
    + intros H. pose proof (join_split "," entry) as Hjoin.
      destruct (split "," entry) as [|e0 [|e1 [|]]]; try done.
      destruct (is_valid e0 false) as [[]| | |] eqn:H0; cbn in H; try done.
      destruct (is_valid e1 true) as [[]| | |] eqn:H1; cbn in H; try done.
      injection H as -> ->. apply is_valid_source in H0.
      apply is_valid_destination in H1. by rewrite <- Hjoin.
    + intros (-> & Hs & Hd). rewrite rule_split by done.
      apply is_valid_source in Hs. apply is_valid_destination in Hd.
      by rewrite Hs, Hd.
  - destruct (split "," entry) as [|e0 [|e1 [|]]];
      try (intros [= <-]; by left).
    destruct (is_valid e0 false) as [[]| | |]; cbn; try done;
      try (intros [= <-]; by left).
    destruct (is_valid e1 true) as [[]| | |]; cbn; try done;
      intros [= <-]; first [by left|by right].
  - destruct (split "," entry) as [|e0 [|e1 [|]]]; try done.
    pose proof (is_valid_returns_or_throws e0 false).
    pose proof (is_valid_returns_or_throws e1 true).
    destruct (is_valid e0 false) as [[]| | |]; try done. cbn.
    by destruct (is_valid e1 true) as [[]| | |].
Qed.

End rule_validation.

(** ** Defining rules *)

Section defining_rules.
Implicit Types (dictionary table : gmap string string).
Implicit Types (entry src dst : string).

(** X10: [save] reports OK exactly on the entries [src,dst] with [src] a
    valid Endpoint that is not "*:*" and [dst] a valid Endpoint without a
    wildcard, and the table it leaves is then the old one with [dst]
    stored under [src]; it never reports NO_MATCH. *)
Theorem save_stores_valid_rules dictionary entry table :
  (save dictionary entry = Normal (OK, table)
   ↔ ∃ src dst, entry = src +:+ "," +:+ dst
       ∧ valid_source src ∧ concrete_endpoint dst
       ∧ table = <[src := dst]> dictionary)
  ∧ save dictionary entry ≠ Normal (NO_MATCH, table).
Proof.
  split; [apply save_ok_iff|].
  intros H. by destruct (save_returns _ _ _ _ H) as [?|[? _]].
Qed.

(** X11: an entry that has not exactly one comma is reported INVALID, the
    table left as it was, before any field is parsed: that call cannot
    throw. *)
Theorem save_comma_count dictionary entry :
  count_char "," entry ≠ 1 →
  save dictionary entry = Normal (INVALID, dictionary).
Proof.
  intros Hc. rewrite save_unfold. pose proof (split_length "," entry) as Hlen.
  destruct (split "," entry) as [|e0 [|e1 [|]]]; try done. cbn in Hlen. lia.
Qed.

Lemma save_comma_count_witness :
  count_char "," "10.0.1.1:8082,192.168.0.3:80,192.168.0.3:85" ≠ 1
  ∧ save nat9 "10.0.1.1:8082,192.168.0.3:80,192.168.0.3:85"
    = Normal (INVALID, nat9).
Proof.
  assert (count_char "," "10.0.1.1:8082,192.168.0.3:80,192.168.0.3:85" ≠ 1)
    as Hc by (by vm_compute).
  split; [done|]. exact (save_comma_count nat9 _ Hc).
Defined.

Lemma save_status_unfold dictionary entry :
  status_of (save dictionary entry) =
    match split "," entry with
    | [e0; e1] =>
        v0 ← is_valid e0 false;
        if negb v0 then Normal INVALID
        else v1 ← is_valid e1 true;
             if negb v1 then Normal INVALID else Normal OK
    | _ => Normal INVALID
    end.
Proof.
  rewrite save_unfold. unfold status_of.
  destruct (split "," entry) as [|e0 [|e1 [|]]]; try done.
  destruct (is_valid e0 false) as [[]| | |]; try done. cbn.
  by destruct (is_valid e1 true) as [[]| | |].
Qed.

(** X12: what [save] reports, a status or an exception, depends on the
    entry alone, not on the table; the call never reads out of bounds and
    never loops. *)
Theorem save_verdict_ignores_table dictionary table entry :
  status_of (save dictionary entry) = status_of (save table entry)
  ∧ returns_or_throws (save dictionary entry).
Proof.
  split; [by rewrite !save_status_unfold|].
  rewrite save_unfold.
  destruct (split "," entry) as [|e0 [|e1 [|]]]; try done.
  pose proof (is_valid_returns_or_throws e0 false).
  pose proof (is_valid_returns_or_throws e1 true).
  destruct (is_valid e0 false) as [[]| | |]; try done. cbn.
  by destruct (is_valid e1 true) as [[]| | |].
Qed.

(** X13: defining the same rule again changes nothing: a second [save] of
    an entry reports the same status and leaves the table the first one
    left. *)
Theorem save_twice dictionary entry status table :
  save dictionary entry = Normal (status, table) →
  save table entry = Normal (status, table).
Proof.
  intros H. destruct (save_returns _ _ _ _ H) as [->|[-> ->]]; [|done].
  apply save_ok_iff in H as (src & dst & -> & Hs & Hd & ->).
  rewrite save_valid_rule by done. by rewrite insert_insert_eq.
Qed.

Lemma save_twice_witness :
  save nat8 "*:8082,192.168.0.1:81" = Normal (OK, nat9)
  ∧ save nat9 "*:8082,192.168.0.1:81" = Normal (OK, nat9).
Proof.
  assert (save nat8 "*:8082,192.168.0.1:81" = Normal (OK, nat9)) as H
    by (by vm_compute).
  split; [done|]. exact (save_twice nat8 _ OK nat9 H).
Defined.

(** X14: rules with different sources can be defined in either order: the
    two orders report OK twice and leave the same table. *)
Theorem save_order dictionary src1 dst1 src2 dst2 :
  valid_source src1 → concrete_endpoint dst1 →
  valid_source src2 → concrete_endpoint dst2 →
  src1 ≠ src2 →
  ∃ t1 t2 table,
    save dictionary (src1 +:+ "," +:+ dst1) = Normal (OK, t1)
    ∧ save t1 (src2 +:+ "," +:+ dst2) = Normal (OK, table)
    ∧ save dictionary (src2 +:+ "," +:+ dst2) = Normal (OK, t2)
    ∧ save t2 (src1 +:+ "," +:+ dst1) = Normal (OK, table).
Proof.
  intros Hs1 Hd1 Hs2 Hd2 Hne.
  exists (<[src1 := dst1]> dictionary), (<[src2 := dst2]> dictionary),
         (<[src2 := dst2]> (<[src1 := dst1]> dictionary)).
  rewrite !save_valid_rule by done. split_and!; try done.
  by rewrite insert_insert_ne.
Qed.

Lemma save_order_witness :
  valid_source "10.0.1.1:8080" ∧ concrete_endpoint "192.168.0.1:80"
  ∧ valid_source "*:8082" ∧ concrete_endpoint "192.168.0.1:81"
  ∧ "10.0.1.1:8080" ≠ "*:8082"
  ∧ ∃ t1 t2 table,
      save ∅ "10.0.1.1:8080,192.168.0.1:80" = Normal (OK, t1)
      ∧ save t1 "*:8082,192.168.0.1:81" = Normal (OK, table)
      ∧ save ∅ "*:8082,192.168.0.1:81" = Normal (OK, t2)
      ∧ save t2 "10.0.1.1:8080,192.168.0.1:80" = Normal (OK, table).
Proof.
  assert (valid_source "10.0.1.1:8080") as Hs1
    by (apply is_valid_source; by vm_compute).
  assert (concrete_endpoint "192.168.0.1:80") as Hd1
    by (apply is_valid_destination; by vm_compute).
  assert (valid_source "*:8082") as Hs2
    by (apply is_valid_source; by vm_compute).
  assert (concrete_endpoint "192.168.0.1:81") as Hd2
    by (apply is_valid_destination; by vm_compute).
  assert ("10.0.1.1:8080" ≠ "*:8082") as Hne by done.
  split_and!; [done..|].
  exact (save_order ∅ _ _ _ _ Hs1 Hd1 Hs2 Hd2 Hne).
Defined.

Lemma save_other_keys dictionary entry status table (key : string) :
  save dictionary entry = Normal (status, table) →
  table !! key = dictionary !! key
  ∨ ∃ dst, entry = key +:+ "," +:+ dst ∧ table !! key = Some dst.
Proof.
  intros H. destruct (save_returns _ _ _ _ H) as [->|[-> ->]]; [|by left].
  apply save_ok_iff in H as (src & dst & -> & Hs & Hd & ->).
  destruct (decide (src = key)) as [->|Hne].
  - right. exists dst. by rewrite lookup_insert_eq.
  - left. by rewrite lookup_insert_ne.
Qed.

(** X15: [save] never removes a key and never touches a key other than
    the source of its entry: after a call that returns, every key holds
    what it held before, or is the text before the comma and holds the
    text after it. *)
Theorem save_frame dictionary entry status table (key : string) :
  save dictionary entry = Normal (status, table) →
  table !! key = dictionary !! key
  ∨ ∃ dst, entry = key +:+ "," +:+ dst ∧ table !! key = Some dst.
Proof. apply save_other_keys. Qed.

Lemma save_frame_witness :
  save nat8 "*:8082,192.168.0.1:81" = Normal (OK, nat9)
  ∧ (nat9 !! "10.0.1.1:8080" = nat8 !! "10.0.1.1:8080"
     ∨ ∃ dst, "*:8082,192.168.0.1:81" = "10.0.1.1:8080" +:+ "," +:+ dst
              ∧ nat9 !! "10.0.1.1:8080" = Some dst).
Proof.
  assert (save nat8 "*:8082,192.168.0.1:81" = Normal (OK, nat9)) as H
    by (by vm_compute).
  split; [done|]. exact (save_frame nat8 _ OK nat9 "10.0.1.1:8080" H).
Defined.

End defining_rules.

(** ** Translating *)

Section translating.
Implicit Types (dictionary table : gmap string string).
Implicit Types (key value a p src dst : string).

Lemma first_present_stored table keys dst :
  first_present table keys = Some dst →
  ∃ k, k ∈ keys ∧ table !! k = Some dst.
Proof.
  induction keys as [|k keys IH]; [done|]. cbn.
  destruct (table !! k) as [d|] eqn:Hk.
  - intros [= ->]. exists k. split; [apply list_elem_of_here|done].
  - intros (k' & ? & ?)%IH. exists k'. split; [by apply list_elem_of_further|done].
Qed.

(** Every way [translate] can return. *)
Lemma translate_inv dictionary key value status value' table :
  translate dictionary key value = Normal (status, value', table) →
  table = dictionary
  ∧ ((status = INVALID ∧ value' = value)
     ∨ ∃ p0 p1 rest,
         split ":" key = p0 :: p1 :: rest
         ∧ is_ip p0 = Normal true ∧ is_port p1 = Normal true
         ∧ p0 ≠ wildcard ∧ p1 ≠ wildcard
         ∧ (status, value') =
             match first_present dictionary
                     [key; p0 +:+ ":*"; "*:" +:+ p1] with
             | Some d => (OK, d)
             | None => (NO_MATCH, value)
             end).
Proof.
  intros H. split; [by apply translate_table in H|]. revert H.
  destruct (split ":" key) as [|p0 [|p1 rest]] eqn:Hsplit.
  - by destruct (split_not_nil ":" key).
  - unfold translate. rewrite parse_char, Hsplit. cbn [mbind outcome_bind].
    unfold not_ip_or_not_port, at_index. cbn [lookup list_lookup mbind outcome_bind].
    destruct (is_ip p0) as [[]| | |]; cbn; try done.
    intros [= <- <-]. by left.
  - destruct (is_ip p0) as [[]| | |] eqn:Hip.
    2-5: unfold translate; rewrite parse_char, Hsplit; cbn [mbind outcome_bind];
      unfold not_ip_or_not_port, at_index;
      cbn [lookup list_lookup mbind outcome_bind]; rewrite Hip; cbn; try done;
      intros [= <- <-]; by left.
    destruct (is_port p1) as [[]| | |] eqn:Hport.
    2-5: unfold translate; rewrite parse_char, Hsplit; cbn [mbind outcome_bind];
      unfold not_ip_or_not_port, at_index;
      cbn [lookup list_lookup mbind outcome_bind]; rewrite Hip, Hport; cbn;
      try done; intros [= <- <-]; by left.
    destruct (decide (p0 = wildcard ∨ p1 = wildcard)) as [Hw|Hw].
    + intros H. apply (translate_wildcard_returns _ _ _ _ _ _ _ Hsplit Hw) in H.
      injection H as <- <- _. by left.
    + rewrite (translate_lookup _ _ _ _ _ _ Hsplit Hip Hport) by tauto.
      intros [= Hst]. right. exists p0, p1, rest.
      split_and!; [done..|tauto|tauto|]. cbn [first_present].
      destruct (dictionary !! key); [by simplify_eq|].
      destruct (dictionary !! (p0 +:+ ":*")); [by simplify_eq|].
      destruct (dictionary !! ("*:" +:+ p1)); by simplify_eq.
Qed.

(** X16: a [translate] that returns leaves the table as it was; it writes
    [value] only when it reports OK, and what it then writes is stored in
    the table under some key. *)
Theorem translate_effects dictionary key value status value' table :
  translate dictionary key value = Normal (status, value', table) →
  table = dictionary
  ∧ (status ≠ OK → value' = value)
  ∧ (status = OK → ∃ k, dictionary !! k = Some value').
Proof.
  intros [-> [[-> ->]|(p0 & p1 & rest & _ & _ & _ & _ & _ & Hres)]]%translate_inv;
    [done|].
  destruct (first_present _ _) as [d|] eqn:Hfp; simplify_eq.
  - apply first_present_stored in Hfp as (k & _ & ?). split_and!; [done..|eauto].
  - done.
Qed.

Lemma translate_effects_witness :
  translate nat9 "10.0.1.1:8082" "" = Normal (OK, "192.168.0.1:81", nat9)
  ∧ nat9 = nat9
  ∧ (OK ≠ OK → "192.168.0.1:81" = "")
  ∧ (OK = OK → ∃ k, nat9 !! k = Some "192.168.0.1:81").
Proof.
  assert (translate nat9 "10.0.1.1:8082" ""
          = Normal (OK, "192.168.0.1:81", nat9)) as H by (by vm_compute).
  split; [done|]. exact (translate_effects nat9 _ _ _ _ _ H).
Defined.

(** X17: when the text before the first colon fails the address check,
    [translate] reports INVALID at once: the port field is neither read
    nor parsed, so nothing is thrown and nothing is read out of bounds. *)
Theorem translate_bad_address dictionary key value p0 (rest : list string) :
  parse key ":" = Normal (p0 :: rest) →
  is_ip p0 = Normal false →
  translate dictionary key value = Normal (INVALID, value, dictionary).
Proof.
  intros Hp Hip. unfold translate. rewrite Hp. cbn [mbind outcome_bind].
  unfold not_ip_or_not_port, at_index. cbn [lookup list_lookup mbind outcome_bind].
  by rewrite Hip.
Qed.

Lemma translate_bad_address_witness :
  parse "300.0.1.1:" ":" = Normal ["300.0.1.1"; ""]
  ∧ is_ip "300.0.1.1" = Normal false
  ∧ translate nat9 "300.0.1.1:" "" = Normal (INVALID, "", nat9).
Proof.
  assert (parse "300.0.1.1:" ":" = Normal ["300.0.1.1"; ""]) as Hp by done.
  assert (is_ip "300.0.1.1" = Normal false) as Hip by (by vm_compute).
  split_and!; [done..|]. exact (translate_bad_address nat9 _ "" _ _ Hp Hip).
Defined.

(** X18: a query without a colon that is a valid address text makes
    [translate] read [parsed[1]] of a vector of one element. *)
Theorem translate_no_colon dictionary key value :
  mem_char ":" key = false → valid_address key →
  translate dictionary key value = Undefined.
Proof.
  intros Hc Ha%is_ip_accepts. unfold translate.
  rewrite parse_char, split_absent by done. cbn [mbind outcome_bind].
  unfold not_ip_or_not_port, at_index. cbn [lookup list_lookup mbind outcome_bind].
  by rewrite Ha.
Qed.

Lemma translate_no_colon_witness :
  mem_char ":" "10.0.1.1" = false ∧ valid_address "10.0.1.1"
  ∧ translate nat9 "10.0.1.1" "" = Undefined.
Proof.
  assert (mem_char ":" "10.0.1.1" = false) as Hc by done.
  assert (valid_address "10.0.1.1") as Ha
    by (right; by exists "10", "0", "1", "1").
  split_and!; [done..|]. exact (translate_no_colon nat9 _ "" Hc Ha).
Defined.

(** X19: a query with "*" as its port and a valid address, or "*" as its
    address and a valid port, is reported INVALID on every table, also on
    one that holds a rule under exactly that text. *)
Theorem translate_rejects_wildcards dictionary a p value :
  valid_address a → valid_port p →
  translate dictionary (a +:+ ":*") value = Normal (INVALID, value, dictionary)
  ∧ translate dictionary ("*:" +:+ p) value
    = Normal (INVALID, value, dictionary).
Proof.
  intros Ha Hp. split.
  - by apply translate_wildcard_port.
  - by apply translate_wildcard_address.
Qed.

Lemma translate_rejects_wildcards_witness :
  valid_address "10.0.1.2" ∧ valid_port "8082"
  ∧ nat12 !! "10.0.1.2:*" = Some "192.168.0.1:83"
  ∧ nat12 !! "*:8082" = Some "192.168.0.1:81"
  ∧ translate nat12 "10.0.1.2:*" "" = Normal (INVALID, "", nat12)
  ∧ translate nat12 "*:8082" "" = Normal (INVALID, "", nat12).
Proof.
  assert (valid_address "10.0.1.2") as Ha
    by (right; by exists "10", "0", "1", "2").
  assert (valid_port "8082") as Hp by (by right).
  split_and!; [done..| |];
    by destruct (translate_rejects_wildcards nat12 _ _ "" Ha Hp).
Defined.

Lemma append_inj_l a x y : a +:+ x = a +:+ y → x = y.
Proof.
  induction a as [|c a IH]; [done|]. rewrite !append_cons.
  intros [= H]. by apply IH.
Qed.

(** The three candidate keys of a concrete query are three different
    texts. *)
Lemma candidates_distinct a p :
  dotted_quad a → numeric_token 65535 p →
  a +:+ ":" +:+ p ≠ a +:+ ":*"
  ∧ a +:+ ":" +:+ p ≠ "*:" +:+ p
  ∧ a +:+ ":*" ≠ "*:" +:+ p.
Proof.
  intros Ha Hp. apply numeric_token_plain in Hp as (_ & Hdot & _ & Hw).
  assert (mem_char "." a = true) as Hadot.
  { destruct Ha as (d1 & d2 & d3 & d4 & -> & _).
    rewrite !mem_char_app. cbn. by rewrite orb_true_r. }
  split_and!.
  - intros H%append_inj_l. by injection H.
  - intros H%(f_equal (mem_char ".")). rewrite !mem_char_app, Hadot in H.
    cbn in H. by rewrite Hdot in H.
  - intros H%(f_equal (mem_char ".")). rewrite !mem_char_app, Hadot in H.
    cbn in H. by rewrite Hdot in H.
Qed.

(** X20: fields after the second colon are not checked: a query
    [address:port:more] with a concrete address and port is looked up
    under its whole text, then under [address:*], then under [*:port]. *)
Theorem translate_ignores_extra_fields dictionary a p more value :
  dotted_quad a → numeric_token 65535 p →
  let key := a +:+ ":" +:+ p +:+ ":" +:+ more in
  translate dictionary key value =
    Normal match first_present dictionary [key; a +:+ ":*"; "*:" +:+ p] with
           | Some dst => (OK, dst, dictionary)
           | None => (NO_MATCH, value, dictionary)
           end.
Proof.
  intros Ha Hp key.
  apply (translate_lookup _ _ _ a p (split ":" more)).
  - unfold key. apply dotted_quad_plain in Ha as (Hc & _).
    pose proof Hp as (Hc' & _)%numeric_token_plain.
    by rewrite !append_char, !split_app.
  - apply is_ip_accepts. by right.
  - apply is_port_accepts. by right.
  - by apply dotted_quad_plain in Ha as (_ & _ & ?).
  - by apply numeric_token_plain in Hp as (_ & _ & _ & ?).
Qed.

Lemma translate_ignores_extra_fields_witness :
  dotted_quad "10.0.1.2" ∧ numeric_token 65535 "8085"
  ∧ translate nat12 "10.0.1.2:8085:anything" ""
    = Normal (OK, "192.168.0.1:83", nat12).
Proof.
  assert (dotted_quad "10.0.1.2") as Ha by (by exists "10", "0", "1", "2").
  assert (numeric_token 65535 "8085") as Hp by done.
  split_and!; [done..|].
  etrans; [exact (translate_ignores_extra_fields nat12 _ _ "anything" "" Ha Hp)|].
  by vm_compute.
Defined.

Lemma reachable_invariant table :
  reachable table →
  map_Forall (λ key dst, valid_source key ∧ concrete_endpoint dst) table.
Proof.
  revert table. apply reachable_preserves.
  - apply map_Forall_empty.
  - intros table src dst IH Hsrc Hdst. by apply map_Forall_insert_2.
Qed.

Lemma translate_ok_concrete table key value dst table' :
  reachable table →
  translate table key value = Normal (OK, dst, table') →
  concrete_endpoint dst.
Proof.
  intros Hreach%reachable_invariant
    [_ [[? _]|(p0 & p1 & rest & _ & _ & _ & _ & _ & Hres)]]%translate_inv;
    [done|].
  destruct (first_present _ _) as [d|] eqn:Hfp; [|done].
  injection Hres as <-.
  apply first_present_stored in Hfp as (k & _ & Hk).
  by destruct (map_Forall_lookup_1 _ _ _ _ Hreach Hk).
Qed.

(** X21: on a table built by calls of [save] and [translate], every
    destination [translate] hands out with OK is a valid Endpoint text
    without a wildcard. *)
Theorem translate_answers_concrete table key value dst table' :
  reachable table →
  translate table key value = Normal (OK, dst, table') →
  concrete_endpoint dst.
Proof. apply translate_ok_concrete. Qed.

Lemma reachable_nat9 : reachable nat9.
Proof.
  apply (reachable_save nat8 "*:8082,192.168.0.1:81" OK); [|by vm_compute].
  apply (reachable_save ∅ "10.0.1.1:8080,192.168.0.1:80" OK); [|by vm_compute].
  apply reachable_empty.
Qed.

Lemma translate_answers_concrete_witness :
  reachable nat9
  ∧ translate nat9 "10.0.1.1:8082" "" = Normal (OK, "192.168.0.1:81", nat9)
  ∧ concrete_endpoint "192.168.0.1:81".
Proof.
  assert (translate nat9 "10.0.1.1:8082" ""
          = Normal (OK, "192.168.0.1:81", nat9)) as H by (by vm_compute).
  split_and!; [apply reachable_nat9|done|].
  exact (translate_answers_concrete nat9 _ _ _ _ reachable_nat9 H).
Defined.

Lemma wildcard_port_source a :
  dotted_quad a → valid_source (a +:+ ":*").
Proof.
  intros Ha. exists a, "*". split; [split_and!; [done|by right|by left]|].
  intros [-> _]. by apply dotted_quad_plain in Ha as (_ & _ & ?).
Qed.

Lemma wildcard_address_source p :
  numeric_token 65535 p → valid_source ("*:" +:+ p).
Proof.
  intros Hp. exists "*", p. split; [split_and!; [done|by left|by right]|].
  intros [_ ->]. by apply numeric_token_plain in Hp as (_ & _ & _ & ?).
Qed.

(** X22: a rule [address:*] answers every concrete query on that address
    that has no exact rule: after [save] of the rule, [translate] of
    [address:port] reports OK with the rule's destination. *)
Theorem wildcard_port_rule dictionary a p dst value :
  dotted_quad a → numeric_token 65535 p → concrete_endpoint dst →
  dictionary !! (a +:+ ":" +:+ p) = None →
  ∃ table,
    save dictionary ((a +:+ ":*") +:+ "," +:+ dst) = Normal (OK, table)
    ∧ translate table (a +:+ ":" +:+ p) value = Normal (OK, dst, table).
Proof.
  intros Ha Hp Hdst Hnone. exists (<[a +:+ ":*" := dst]> dictionary). split.
  - apply save_valid_rule; [by apply wildcard_port_source|done].
  - rewrite translate_concrete by done. cbn [candidates first_present].
    destruct (candidates_distinct a p Ha Hp) as (Hne & _ & _).
    by rewrite lookup_insert_ne, Hnone, lookup_insert_eq.
Qed.

Lemma wildcard_port_rule_witness :
  dotted_quad "10.0.1.2" ∧ numeric_token 65535 "8085"
  ∧ concrete_endpoint "192.168.0.1:83"
  ∧ nat9 !! "10.0.1.2:8085" = None
  ∧ ∃ table,
      save nat9 "10.0.1.2:*,192.168.0.1:83" = Normal (OK, table)
      ∧ translate table "10.0.1.2:8085" ""
        = Normal (OK, "192.168.0.1:83", table).
Proof.
  assert (dotted_quad "10.0.1.2") as Ha by (by exists "10", "0", "1", "2").
  assert (numeric_token 65535 "8085") as Hp by done.
  assert (concrete_endpoint "192.168.0.1:83") as Hd
    by (apply is_valid_destination; by vm_compute).
  assert (nat9 !! "10.0.1.2:8085" = None) as Hn by (by vm_compute).
  split_and!; [done..|]. exact (wildcard_port_rule nat9 _ _ _ "" Ha Hp Hd Hn).
Defined.

(** X23: a rule [*:port] answers every concrete query on that port that
    has neither an exact rule nor a rule [address:*]. *)
Theorem wildcard_address_rule dictionary a p dst value :
  dotted_quad a → numeric_token 65535 p → concrete_endpoint dst →
  dictionary !! (a +:+ ":" +:+ p) = None →
  dictionary !! (a +:+ ":*") = None →
  ∃ table,
    save dictionary (("*:" +:+ p) +:+ "," +:+ dst) = Normal (OK, table)
    ∧ translate table (a +:+ ":" +:+ p) value = Normal (OK, dst, table).
Proof.
  intros Ha Hp Hdst Hexact Hport. exists (<["*:" +:+ p := dst]> dictionary).
  split.
  - apply save_valid_rule; [by apply wildcard_address_source|done].
  - rewrite translate_concrete by done. cbn [candidates first_present].
    destruct (candidates_distinct a p Ha Hp) as (_ & Hne1 & Hne2).
    rewrite lookup_insert_ne, Hexact by done.
    by rewrite lookup_insert_ne, Hport, lookup_insert_eq.
Qed.

Lemma wildcard_address_rule_witness :
  dotted_quad "10.0.1.1" ∧ numeric_token 65535 "8082"
  ∧ concrete_endpoint "192.168.0.1:81"
  ∧ nat8 !! "10.0.1.1:8082" = None ∧ nat8 !! "10.0.1.1:*" = None
  ∧ ∃ table,
      save nat8 "*:8082,192.168.0.1:81" = Normal (OK, table)
      ∧ translate table "10.0.1.1:8082" ""
        = Normal (OK, "192.168.0.1:81", table).
Proof.
  assert (dotted_quad "10.0.1.1") as Ha by (by exists "10", "0", "1", "1").
  assert (numeric_token 65535 "8082") as Hp by done.
  assert (concrete_endpoint "192.168.0.1:81") as Hd
    by (apply is_valid_destination; by vm_compute).
  assert (nat8 !! "10.0.1.1:8082" = None) as Hn by (by vm_compute).
  assert (nat8 !! "10.0.1.1:*" = None) as Hn' by (by vm_compute).
  split_and!; [done..|].
  exact (wildcard_address_rule nat8 _ _ _ "" Ha Hp Hd Hn Hn').
Defined.

Lemma first_present_agree (t1 t2 : gmap string string) (keys : list string) :
  (∀ k, k ∈ keys → t1 !! k = t2 !! k) →
  first_present t1 keys = first_present t2 keys.
Proof.
  induction keys as [|k keys IH]; [done|]. intros H. cbn.
  rewrite (H k) by apply list_elem_of_here.
  rewrite IH; [done|]. intros k' Hk'. apply H. by apply list_elem_of_further.
Qed.

(** X24: a [save] whose entry does not start with one of the three
    candidate keys of a concrete query followed by a comma does not change
    the answer to that query, whether the entry is stored or rejected. *)
Theorem save_keeps_other_answers dictionary entry status table a p value :
  dotted_quad a → numeric_token 65535 p →
  save dictionary entry = Normal (status, table) →
  (∀ k dst, k ∈ candidates a p → entry ≠ k +:+ "," +:+ dst) →
  ∃ answer value',
    translate dictionary (a +:+ ":" +:+ p) value
    = Normal (answer, value', dictionary)
    ∧ translate table (a +:+ ":" +:+ p) value = Normal (answer, value', table).
Proof.
  intros Ha Hp Hsave Hother. rewrite !translate_concrete by done.
  rewrite (first_present_agree table dictionary).
  - destruct (first_present dictionary _); by eexists _, _.
  - intros k Hk. destruct (save_other_keys _ _ _ _ k Hsave) as [?|(d & ? & _)];
      [done|]. by destruct (Hother k d).
Qed.

Lemma save_keeps_other_answers_witness :
  dotted_quad "10.0.1.1" ∧ numeric_token 65535 "8080"
  ∧ save nat8 "*:8082,192.168.0.1:81" = Normal (OK, nat9)
  ∧ (∀ k dst, k ∈ candidates "10.0.1.1" "8080" →
              "*:8082,192.168.0.1:81" ≠ k +:+ "," +:+ dst)
  ∧ ∃ answer value',
      translate nat8 "10.0.1.1:8080" "" = Normal (answer, value', nat8)
      ∧ translate nat9 "10.0.1.1:8080" "" = Normal (answer, value', nat9).
Proof.
  assert (dotted_quad "10.0.1.1") as Ha by (by exists "10", "0", "1", "1").
  assert (numeric_token 65535 "8080") as Hp by done.
  assert (save nat8 "*:8082,192.168.0.1:81" = Normal (OK, nat9)) as Hs
    by (by vm_compute).
  assert (∀ k dst, k ∈ candidates "10.0.1.1" "8080" →
                   "*:8082,192.168.0.1:81" ≠ k +:+ "," +:+ dst) as Ho.
  { intros k dst Hk. unfold candidates in Hk.
    rewrite !elem_of_cons in Hk. destruct Hk as [->|[->|[->|Hk]]];
      [done|done| |by apply elem_of_nil in Hk].
    intros [= _]. }
  split_and!; [done..|].
  exact (save_keeps_other_answers nat8 _ OK nat9 _ _ "" Ha Hp Hs Ho).
Defined.

End translating.

(** ** The driver *)

Section driver.
Implicit Types (dictionary table : gmap string string).
Implicit Types (line : string) (lines cout outfile : list string).

Lemma save_rejected dictionary line status table :
  save dictionary line = Normal (status, table) →
  rejected line = bool_decide (status ≠ OK).
Proof.
  intros H. unfold rejected.
  rewrite (save_status_unfold ∅), <- (save_status_unfold dictionary), H. cbn.
  by destruct status.
Qed.

Lemma load_returns lines dictionary cout table cout' :
  load dictionary cout lines = Normal (table, cout') →
  cout' = cout ++ (error_line <$> filter (λ l, l ≠ "" ∧ rejected l) lines)
  ∧ (reachable dictionary → reachable table).
Proof.
  revert dictionary cout. induction lines as [|line rest IH]; intros d cout.
  - intros [= <- <-]. by rewrite app_nil_r.
  - cbn [load]. rewrite eqb_eq_dec. case_bool_decide as Hline; cbn [negb].
    + intros H%IH. rewrite filter_cons_False by tauto. done.
    + destruct (save d line) as [[st t]| | |] eqn:Hsave;
        cbn [mbind outcome_bind fst snd]; try done.
      pose proof (save_rejected _ _ _ _ Hsave) as Hrej.
      case_bool_decide as Hst.
      * intros [-> Hreach]%IH. rewrite filter_cons_True by (by rewrite Hrej).
        split; [by rewrite fmap_cons, <- app_assoc|].
        intros Hd. apply Hreach. by eapply reachable_save.
      * intros [-> Hreach]%IH.
        rewrite filter_cons_False by (rewrite Hrej; by intros [? ?]).
        split; [done|]. intros Hd. apply Hreach. by eapply reachable_save.
Qed.

Lemma answer_returns lines dictionary outfile table outfile' :
  answer dictionary outfile lines = Normal (table, outfile') →
  table = dictionary
  ∧ ∃ written,
      outfile' = outfile ++ written
      ∧ Forall2 (λ q w, ∃ status value,
                   translate dictionary q "" = Normal (status, value, dictionary)
                   ∧ w = report q status value)
          (filter (λ l, l ≠ "") lines) written.
Proof.
  revert outfile. induction lines as [|line rest IH]; intros outfile.
  - intros [= <- <-]. split; [done|]. exists []. by rewrite app_nil_r.
  - cbn [answer]. rewrite eqb_eq_dec. case_bool_decide as Hline; cbn [negb].
    + intros H%IH. by rewrite filter_cons_False by tauto.
    + destruct (translate dictionary line "") as [[[st v] t]| | |] eqn:Htr;
        cbn [mbind outcome_bind fst snd]; try done.
      pose proof (translate_table _ _ _ _ _ _ Htr) as ->.
      intros [-> (written & -> & Hall)]%IH. split; [done|].
      exists (report line st v :: written).
      rewrite filter_cons_True by done. split; [by rewrite <- app_assoc|].
      constructor; [by exists st, v|done].
Qed.

(** X25: blank lines count for nothing: both loops of [main] do on a list
    of lines what they do on the list without its empty lines. *)
Theorem blank_lines_skipped dictionary cout outfile lines :
  load dictionary cout lines
  = load dictionary cout (filter (λ l, l ≠ "") lines)
  ∧ answer dictionary outfile lines
    = answer dictionary outfile (filter (λ l, l ≠ "") lines).
Proof.
  split.
  - revert dictionary cout. induction lines as [|line rest IH]; intros d c;
      [done|].
    destruct (decide (line = "")) as [->|Hne].
    + rewrite filter_cons_False by tauto. apply IH.
    + rewrite filter_cons_True by done. cbn [load].
      destruct (negb _); [|apply IH].
      destruct (save d line) as [[st t]| | |];
        cbn [mbind outcome_bind fst snd]; [|done..].
      case_bool_decide; apply IH.
  - revert dictionary outfile. induction lines as [|line rest IH]; intros d o;
      [done|].
    destruct (decide (line = "")) as [->|Hne].
    + rewrite filter_cons_False by tauto. apply IH.
    + rewrite filter_cons_True by done. cbn [answer].
      destruct (negb _); [|apply IH].
      destruct (translate d line "") as [[[st v] t]| | |];
        cbn [mbind outcome_bind fst snd]; [apply IH|done..].
Qed.

Lemma main_returns NAT FLOW cout outfile :
  main NAT FLOW = Normal (cout, outfile) →
  ∃ table,
    reachable table
    ∧ load ∅ [] (getlines NAT) = Normal (table, cout)
    ∧ answer table [] (getlines FLOW) = Normal (table, outfile).
Proof.
  unfold main.
  destruct (load ∅ [] (getlines NAT)) as [[t c]| | |] eqn:Hload; cbn; try done.
  destruct (answer t [] (getlines FLOW)) as [[t' o]| | |] eqn:Hans; cbn;
    try done.
  intros [= <- <-]. exists t.
  destruct (load_returns _ _ _ _ _ Hload) as [_ Hreach].
  destruct (answer_returns _ _ _ _ _ Hans) as [-> _].
  split_and!; [apply Hreach, reachable_empty|done..].
Qed.

(** X26: when [main] returns it has written to OUTPUT one text for each
    line of FLOW that is not empty, in their order: the line with
    " format is incorrect", or "No nat match for " and the line, or the
    line, " -> " and a destination, which is a valid Endpoint text without
    a wildcard; each ends in a newline. *)
Theorem main_output NAT FLOW cout outfile :
  main NAT FLOW = Normal (cout, outfile) →
  Forall2
    (λ q w,
       w = "query " +:+ q +:+ " format is incorrect" +:+ newline
       ∨ w = "No nat match for " +:+ q +:+ newline
       ∨ ∃ dst, concrete_endpoint dst ∧ w = q +:+ " -> " +:+ dst +:+ newline)
    (filter (λ l, l ≠ "") (getlines FLOW)) outfile.
Proof.
  intros (table & Hreach & _ & Hans)%main_returns.
  apply answer_returns in Hans as (_ & written & -> & Hall). cbn.
  eapply Forall2_impl; [exact Hall|]. cbn.
  intros q w ([| |] & v & Htr & ->); cbn [report]; [by left| |by right; left].
  right; right. exists v. split; [|done]. by eapply translate_ok_concrete.
Qed.

(** X27: when [main] returns it has sent to [cout] one error line for each
    line of NAT that is not empty and not a valid rule, in their order,
    and nothing else. *)
Theorem main_errors NAT FLOW cout outfile :
  main NAT FLOW = Normal (cout, outfile) →
  cout = error_line <$> filter (λ l, l ≠ "" ∧ rejected l) (getlines NAT).
Proof.
  intros (table & _ & Hload & _)%main_returns.
  by apply load_returns in Hload as [-> _].
Qed.

Lemma sample_run :
  main sample_NAT sample_FLOW
  = Normal (["Error: 192.168.0.1:80 is not valid input"],
            ["No nat match for 10.0.1.1:8085" +:+ newline;
             "query *:8082 format is incorrect" +:+ newline;
             "10.0.1.1:8082 -> 192.168.0.1:81" +:+ newline]).
Proof. by vm_compute. Qed.

Lemma main_output_witness :
  main sample_NAT sample_FLOW
  = Normal (["Error: 192.168.0.1:80 is not valid input"],
            ["No nat match for 10.0.1.1:8085" +:+ newline;
             "query *:8082 format is incorrect" +:+ newline;
             "10.0.1.1:8082 -> 192.168.0.1:81" +:+ newline])
  ∧ Forall2
      (λ q w,
         w = "query " +:+ q +:+ " format is incorrect" +:+ newline
         ∨ w = "No nat match for " +:+ q +:+ newline
         ∨ ∃ dst, concrete_endpoint dst
                  ∧ w = q +:+ " -> " +:+ dst +:+ newline)
      (filter (λ l, l ≠ "") (getlines sample_FLOW))
      ["No nat match for 10.0.1.1:8085" +:+ newline;
       "query *:8082 format is incorrect" +:+ newline;
       "10.0.1.1:8082 -> 192.168.0.1:81" +:+ newline].
Proof.
  split; [apply sample_run|].
  exact (main_output sample_NAT sample_FLOW _ _ sample_run).
Defined.

Lemma main_errors_witness :
  main sample_NAT sample_FLOW
  = Normal (["Error: 192.168.0.1:80 is not valid input"],
            ["No nat match for 10.0.1.1:8085" +:+ newline;
             "query *:8082 format is incorrect" +:+ newline;
             "10.0.1.1:8082 -> 192.168.0.1:81" +:+ newline])
  ∧ ["Error: 192.168.0.1:80 is not valid input"]
    = error_line <$> filter (λ l, l ≠ "" ∧ rejected l) (getlines sample_NAT).
Proof.
  split; [apply sample_run|].
  exact (main_errors sample_NAT sample_FLOW _ _ sample_run).
Defined.

Lemma load_valid_rules lines dictionary cout :
  Forall (λ l, l = "" ∨ ∃ src dst, l = src +:+ "," +:+ dst
                          ∧ valid_source src ∧ concrete_endpoint dst) lines →
  ∃ table, load dictionary cout lines = Normal (table, cout).
Proof.
  intros Hall. revert dictionary.
  induction Hall as [|line rest Hline _ IH]; intros d; [by eexists|].
  cbn [load]. destruct Hline as [->|(src & dst & -> & Hs & Hd)]; [apply IH|].
  rewrite eqb_eq_dec. case_bool_decide; [apply IH|]. cbn [negb].
  rewrite save_valid_rule by done. cbn [mbind outcome_bind fst snd].
  rewrite bool_decide_eq_false_2 by (by intros ?). apply IH.
Qed.

Lemma answer_concrete_queries lines dictionary outfile :
  Forall (λ q, q = "" ∨ concrete_endpoint q) lines →
  ∃ written,
    answer dictionary outfile lines = Normal (dictionary, outfile ++ written)
    ∧ Forall2 (λ q w, w = "No nat match for " +:+ q +:+ newline
                      ∨ ∃ dst, w = q +:+ " -> " +:+ dst +:+ newline)
        (filter (λ l, l ≠ "") lines) written.
Proof.
  intros Hall. revert outfile.
  induction Hall as [|line rest Hline _ IH]; intros o.
  - exists []. by rewrite app_nil_r.
  - cbn [answer]. rewrite eqb_eq_dec. case_bool_decide as Hne; cbn [negb].
    + rewrite filter_cons_False by tauto. apply IH.
    + destruct Hline as [?|(a & p & -> & Ha & Hp)%concrete_endpoint_fields];
        [done|].
      rewrite translate_concrete by done. rewrite filter_cons_True by done.
      set (q := a +:+ ":" +:+ p).
      destruct (first_present dictionary (candidates a p)) as [dst|];
        cbn [mbind outcome_bind fst snd].
      * destruct (IH (o ++ [report q OK dst])) as (written & Heq & Hall').
        exists (report q OK dst :: written).
        rewrite Heq, <- app_assoc. split; [done|].
        constructor; [right; by exists dst|done].
      * destruct (IH (o ++ [report q NO_MATCH ""])) as (written & Heq & Hall').
        exists (report q NO_MATCH "" :: written).
        rewrite Heq, <- app_assoc. split; [done|].
        constructor; [by left|done].
Qed.

(** X28: when every line of NAT is empty or a valid rule and every line of
    FLOW is empty or a valid Endpoint text without a wildcard, [main]
    returns, sends nothing to [cout], and answers every query with its
    destination or with "No nat match for ": nothing is reported as a
    format error. *)
Theorem main_valid_input NAT FLOW :
  Forall (λ l, l = "" ∨ ∃ src dst, l = src +:+ "," +:+ dst
                          ∧ valid_source src ∧ concrete_endpoint dst)
    (getlines NAT) →
  Forall (λ q, q = "" ∨ concrete_endpoint q) (getlines FLOW) →
  ∃ outfile,
    main NAT FLOW = Normal ([], outfile)
    ∧ Forall2 (λ q w, w = "No nat match for " +:+ q +:+ newline
                      ∨ ∃ dst, w = q +:+ " -> " +:+ dst +:+ newline)
        (filter (λ l, l ≠ "") (getlines FLOW)) outfile.
Proof.
  intros Hnat Hflow. unfold main.
  destruct (load_valid_rules _ ∅ [] Hnat) as [table ->].
  cbn [mbind outcome_bind fst snd].
  destruct (answer_concrete_queries _ table [] Hflow) as (written & -> & Hall).
  by exists written.
Qed.

Lemma main_valid_input_witness :
  Forall (λ l, l = "" ∨ ∃ src dst, l = src +:+ "," +:+ dst
                          ∧ valid_source src ∧ concrete_endpoint dst)
    (getlines valid_NAT)
  ∧ Forall (λ q, q = "" ∨ concrete_endpoint q) (getlines valid_FLOW)
  ∧ ∃ outfile,
      main valid_NAT valid_FLOW = Normal ([], outfile)
      ∧ Forall2 (λ q w, w = "No nat match for " +:+ q +:+ newline
                        ∨ ∃ dst, w = q +:+ " -> " +:+ dst +:+ newline)
          (filter (λ l, l ≠ "") (getlines valid_FLOW)) outfile.
Proof.
  assert (Forall (λ l, l = "" ∨ ∃ src dst, l = src +:+ "," +:+ dst
                          ∧ valid_source src ∧ concrete_endpoint dst)
            (getlines valid_NAT)) as Hnat.
  { replace (getlines valid_NAT)
      with ["10.0.1.1:8080,192.168.0.1:80"; ""; "*:8082,192.168.0.1:81"]
      by (by vm_compute).
    rewrite !Forall_cons. split_and!; [| | |by apply Forall_nil].
    - right. exists "10.0.1.1:8080", "192.168.0.1:80".
      split_and!; [done| |].
      + apply is_valid_source. by vm_compute.
      + apply is_valid_destination. by vm_compute.
    - by left.
    - right. exists "*:8082", "192.168.0.1:81".
      split_and!; [done| |].
      + apply is_valid_source. by vm_compute.
      + apply is_valid_destination. by vm_compute. }
  assert (Forall (λ q, q = "" ∨ concrete_endpoint q) (getlines valid_FLOW))
    as Hflow.
  { replace (getlines valid_FLOW) with ["10.0.1.1:8085"; "10.0.1.1:8082"]
      by (by vm_compute).
    rewrite !Forall_cons. split_and!; [| |by apply Forall_nil];
      right; apply is_valid_destination; by vm_compute. }
  split_and!; [done..|]. exact (main_valid_input valid_NAT valid_FLOW Hnat Hflow).
Defined.

Lemma load_aborts pre line post (e : exception) :
  Forall (λ l, ∃ status, status_of (save ∅ l) = Normal status) pre →
  status_of (save ∅ line) = Throws e →
  ∀ dictionary cout,
    load dictionary cout (pre ++ line :: post) = Throws e.
Proof.
  intros Hpre Hline. induction Hpre as [|l pre [st Hl] _ IH]; intros d cout.
  - cbn [app load]. rewrite eqb_eq_dec.
    case_bool_decide as Hne; [by subst line|]. cbn [negb].
    rewrite (save_status_unfold ∅), <- (save_status_unfold d) in Hline.
    unfold status_of in Hline.
    destruct (save d line) as [r| | |]; cbn in Hline; by simplify_eq.
  - cbn [app load]. destruct (negb _); [|apply IH].
    rewrite (save_status_unfold ∅), <- (save_status_unfold d) in Hl.
    unfold status_of in Hl.
    destruct (save d l) as [[st' t]| | |]; cbn in Hl; try done.
    cbn [mbind outcome_bind fst snd]. case_bool_decide; apply IH.
Qed.

(** X29: a rule line on which [save] throws ends the run: when the lines
    of NAT before it are all stored or rejected, [main] leaves by that
    exception, whatever follows in NAT and whatever FLOW holds. *)
Theorem main_aborts NAT FLOW pre line post (e : exception) :
  getlines NAT = pre ++ line :: post →
  Forall (λ l, ∃ status, status_of (save ∅ l) = Normal status) pre →
  status_of (save ∅ line) = Throws e →
  main NAT FLOW = Throws e.
Proof.
  intros Hlines Hpre Hline. unfold main.
  by rewrite Hlines, (load_aborts pre line post e Hpre Hline).
Qed.


Lemma main_aborts_witness :
  getlines throwing_NAT
  = ["10.0.1.1:8080,192.168.0.1:80"]
    ++ "1.2.3.4:,1.2.3.4:80" :: ["*:8082,192.168.0.1:81"]
  ∧ Forall (λ l, ∃ status, status_of (save ∅ l) = Normal status)
      ["10.0.1.1:8080,192.168.0.1:80"]
  ∧ status_of (save ∅ "1.2.3.4:,1.2.3.4:80") = Throws invalid_argument
  ∧ main throwing_NAT valid_FLOW = Throws invalid_argument.
Proof.
  assert (getlines throwing_NAT
          = ["10.0.1.1:8080,192.168.0.1:80"]
            ++ "1.2.3.4:,1.2.3.4:80" :: ["*:8082,192.168.0.1:81"]) as Hlines
    by (by vm_compute).
  assert (Forall (λ l, ∃ status, status_of (save ∅ l) = Normal status)
            ["10.0.1.1:8080,192.168.0.1:80"]) as Hpre.
  { apply Forall_cons. split; [|by apply Forall_nil]. exists OK. by vm_compute. }
  assert (status_of (save ∅ "1.2.3.4:,1.2.3.4:80") = Throws invalid_argument)
    as Hline by (by vm_compute).
  split_and!; [done..|].
  exact (main_aborts throwing_NAT valid_FLOW _ _ _ _ Hlines Hpre Hline).
Defined.

End driver.
